(** * Manufacturing meta region of newt (newt/mfg/meta.go)

    A shallow embedding of the encoder of the manufacturing meta region,
    of its insertion into the flash image ([insertMeta]) and of the
    self-referential hash ([calcMetaHash], [fillMetaHash]), followed by
    the properties of the specification that are settled against it. *)

From Stdlib Require Import ZArith Lia.
From Stdlib Require Import Strings.Byte.
From stdpp Require Import base list vector gmap strings.

Open Scope Z_scope.

(** ** Go integers and bytes *)

(** Go's [int] on the 64-bit hosts newt is built for: a Z kept in
    [min_int, max_int] by wrapping after each operation. *)
Definition min_int : Z := - 2 ^ 63.
Definition max_int : Z := 2 ^ 63 - 1.

Definition is_int (z : Z) : Prop := min_int <= z <= max_int.

Definition wrap_int (z : Z) : Z := (z + 2 ^ 63) mod 2 ^ 64 - 2 ^ 63.

Definition int_add (a b : Z) : Z := wrap_int (a + b).
Definition int_sub (a b : Z) : Z := wrap_int (a - b).

(** Conversions to the unsigned fixed-width types keep the low bits. *)
Definition uint8 (z : Z) : Z := z mod 2 ^ 8.
Definition uint16 (z : Z) : Z := z mod 2 ^ 16.
Definition uint32 (z : Z) : Z := z mod 2 ^ 32.

(** The byte holding the low eight bits of [z] (Go's [byte(z)]). *)
Definition byte_of_Z (z : Z) : byte :=
  default x00 (Byte.of_N (Z.to_N (z mod 256))).

Definition Z_of_byte (b : byte) : Z := Z.of_N (Byte.to_N b).

(** ** encoding/binary, as far as meta.go uses it *)

Inductive ByteOrder := LittleEndian | BigEndian.

Definition PutUint16 (o : ByteOrder) (v : Z) : list byte :=
  match o with
  | LittleEndian => [byte_of_Z v; byte_of_Z (Z.shiftr v 8)]
  | BigEndian => [byte_of_Z (Z.shiftr v 8); byte_of_Z v]
  end.

Definition PutUint32 (o : ByteOrder) (v : Z) : list byte :=
  match o with
  | LittleEndian =>
      [byte_of_Z v; byte_of_Z (Z.shiftr v 8);
       byte_of_Z (Z.shiftr v 16); byte_of_Z (Z.shiftr v 24)]
  | BigEndian =>
      [byte_of_Z (Z.shiftr v 24); byte_of_Z (Z.shiftr v 16);
       byte_of_Z (Z.shiftr v 8); byte_of_Z v]
  end.

(** Readers of the little-endian order, used to state what a field of
    the region holds. *)
Definition LittleEndian_Uint16 (b : list byte) : option Z :=
  match b with
  | [b0; b1] => Some (Z.lor (Z_of_byte b0) (Z.shiftl (Z_of_byte b1) 8))
  | _ => None
  end.

Definition LittleEndian_Uint32 (b : list byte) : option Z :=
  match b with
  | [b0; b1; b2; b3] =>
      Some (Z.lor (Z.lor (Z_of_byte b0) (Z.shiftl (Z_of_byte b1) 8))
              (Z.lor (Z.shiftl (Z_of_byte b2) 16) (Z.shiftl (Z_of_byte b3) 24)))
  | _ => None
  end.

(** The values [binary.Write] meets by reflection.  [GoInt] stands for
    the kinds that have no fixed size (int, string, slices of them),
    which [binary.Write] refuses. *)
#[warnings="-register-all"]
Inductive GoData :=
| GoUint8 (v : Z)
| GoUint16 (v : Z)
| GoUint32 (v : Z)
| GoInt (v : Z)
| GoArray (elems : list GoData)
| GoStruct (fields : list GoData).

(** binary.dataSize: the encoded size, or nothing when the value is not
    made of fixed-size parts only. *)
Fixpoint dataSize (d : GoData) : option nat :=
  match d with
  | GoUint8 _ => Some 1%nat
  | GoUint16 _ => Some 2%nat
  | GoUint32 _ => Some 4%nat
  | GoInt _ => None
  | GoArray l | GoStruct l =>
      (fix sizes (l : list GoData) : option nat :=
         match l with
         | [] => Some 0%nat
         | x :: r =>
             match dataSize x, sizes r with
             | Some n, Some m => Some (n + m)%nat
             | _, _ => None
             end
         end) l
  end.

(** The encoder of binary.Write: fields in declaration order, no padding. *)
Fixpoint encode (o : ByteOrder) (d : GoData) : list byte :=
  match d with
  | GoUint8 v => [byte_of_Z v]
  | GoUint16 v => PutUint16 o v
  | GoUint32 v => PutUint32 o v
  | GoInt _ => []
  | GoArray l | GoStruct l =>
      (fix parts (l : list GoData) : list byte :=
         match l with
         | [] => []
         | x :: r => encode o x ++ parts r
         end) l
  end.

(** A bytes.Buffer that is only written to: its contents. *)
Definition Buffer := list byte.

Definition Len (buf : Buffer) : Z := Z.of_nat (length buf).

(** binary.Write(buf, order, data): an error and an untouched buffer for
    a value without a fixed size; otherwise the encoding is appended
    (Buffer.Write itself returns no error). *)
Definition binary_Write (buf : Buffer) (o : ByteOrder) (d : GoData)
  : option string * Buffer :=
  match dataSize d with
  | None => (Some "binary.Write: some values are not fixed-sized", buf)
  | Some _ => (None, buf ++ encode o d)
  end.

(** ** Package util: the errors meta.go builds *)

Inductive NewtError :=
| ChildNewtError (parent : string)
| NewNewtError (msg : string)
| FmtNewtError (format : string) (args : list Z).

(** ** Package flash *)

Module flash.

(** Modelled from the spec: the declaration of flash.FlashArea is in
    package flash; meta.go reads the fields Id, Device, Offset and Size
    and uses Offset and Size as Go ints. *)
Record FlashArea := {
  Id : Z;
  Device : Z;
  Offset : Z;
  Size : Z
}.

(** Modelled from the spec: flash.FlashMap, a map from area name to
    area with a deterministic sorted sequence of its areas.  The method
    SortedAreas is in package flash: its result is carried with the
    map. *)
Record FlashMap := {
  Areas : gmap string FlashArea;
  SortedAreas : list FlashArea
}.

(** Modelled from the spec: the reserved name of the boot-loader area,
    a constant of package flash. *)
Definition FLASH_AREA_NAME_BOOTLOADER : string := "bootloader".

End flash.

(** ** Constants and records of meta.go *)

Definition META_MAGIC : Z := 0x3bb2a269.
Definition META_VERSION : Z := 1.
Definition META_TLV_CODE_HASH : Z := 0x01.
Definition META_TLV_CODE_FLASH_AREA : Z := 0x02.

Definition META_HASH_SZ : Z := 32.
Definition META_FOOTER_SZ : Z := 8.
Definition META_TLV_HASH_SZ : Z := META_HASH_SZ.
Definition META_TLV_FLASH_AREA_SZ : Z := 12.

Record metaHeader := {
  hdr_version : Z;   (* uint8 *)
  hdr_pad8 : Z;      (* uint8 *)
  hdr_pad16 : Z      (* uint16 *)
}.

Record metaFooter := {
  ftr_size : Z;      (* uint16: includes header, TLVs, and footer *)
  ftr_pad16 : Z;     (* uint16 *)
  ftr_magic : Z      (* uint32 *)
}.

Record metaTlvHeader := {
  tlv_code : Z;      (* uint8 *)
  tlv_size : Z       (* uint8 *)
}.

Record metaTlvFlashArea := {
  fa_header : metaTlvHeader;
  fa_areaId : Z;     (* uint8 *)
  fa_deviceId : Z;   (* uint8 *)
  fa_pad16 : Z;      (* uint16 *)
  fa_offset : Z;     (* uint32 *)
  fa_size : Z        (* uint32 *)
}.

Record metaTlvHash := {
  h_header : metaTlvHeader;
  h_hash : vec byte 32
}.

(** What reflection shows of a value handed over as [interface{}]. *)
Class Reflect (A : Type) := reflect : A -> GoData.

#[export] Instance metaHeader_reflect : Reflect metaHeader := fun h =>
  GoStruct [GoUint8 (hdr_version h); GoUint8 (hdr_pad8 h); GoUint16 (hdr_pad16 h)].

#[export] Instance metaFooter_reflect : Reflect metaFooter := fun f =>
  GoStruct [GoUint16 (ftr_size f); GoUint16 (ftr_pad16 f); GoUint32 (ftr_magic f)].

#[export] Instance metaTlvHeader_reflect : Reflect metaTlvHeader := fun t =>
  GoStruct [GoUint8 (tlv_code t); GoUint8 (tlv_size t)].

#[export] Instance metaTlvFlashArea_reflect : Reflect metaTlvFlashArea := fun t =>
  GoStruct [reflect (fa_header t); GoUint8 (fa_areaId t); GoUint8 (fa_deviceId t);
            GoUint16 (fa_pad16 t); GoUint32 (fa_offset t); GoUint32 (fa_size t)].

#[export] Instance metaTlvHash_reflect : Reflect metaTlvHash := fun t =>
  GoStruct [reflect (h_header t);
            GoArray (map (fun b => GoUint8 (Z_of_byte b)) (vec_to_list (h_hash t)))].

(** ** The writers *)

Definition writeElem {A} `{Reflect A} (elem : A) (buf : Buffer)
  : option NewtError * Buffer :=
  (* XXX: Assume little endian for now. *)
  match binary_Write buf LittleEndian (reflect elem) with
  | (Some err, buf) => (Some (ChildNewtError err), buf)
  | (None, buf) => (None, buf)
  end.

Definition writeHeader (buf : Buffer) : option NewtError * Buffer :=
  let hdr := {| hdr_version := META_VERSION; hdr_pad8 := 0xff; hdr_pad16 := 0xffff |} in
  writeElem hdr buf.

Definition writeFooter (buf : Buffer) : option NewtError * Buffer :=
  let ftr := {| ftr_size := uint16 (int_add (Len buf) META_FOOTER_SZ);
                ftr_pad16 := 0xffff;
                ftr_magic := META_MAGIC |} in
  writeElem ftr buf.

Definition writeTlvHeader (code size : Z) (buf : Buffer) : option NewtError * Buffer :=
  let tlvHdr := {| tlv_code := code; tlv_size := size |} in
  writeElem tlvHdr buf.

Definition writeFlashArea (area : flash.FlashArea) (buf : Buffer)
  : option NewtError * Buffer :=
  let tlv := {| fa_header := {| tlv_code := META_TLV_CODE_FLASH_AREA;
                                tlv_size := META_TLV_FLASH_AREA_SZ |};
                fa_areaId := uint8 (flash.Id area);
                fa_deviceId := uint8 (flash.Device area);
                fa_pad16 := 0xffff;
                fa_offset := uint32 (flash.Offset area);
                fa_size := uint32 (flash.Size area) |} in
  writeElem tlv buf.

Definition writeZeroHash (buf : Buffer) : option NewtError * Buffer :=
  let tlv := {| h_header := {| tlv_code := META_TLV_CODE_HASH;
                               tlv_size := META_TLV_HASH_SZ |};
                h_hash := vreplicate 32 x00 |} in
  writeElem tlv buf.

(** ** Go slices of bytes

    A slice is modelled by its elements; its capacity is taken equal to
    its length.  An access out of range is a run-time panic. *)

Inductive panic :=
| IndexOutOfRange (i : Z)
| SliceBoundsOutOfRange (lo hi : Z).

Inductive result (A : Type) :=
| Return (a : A)
| Panic (p : panic).
Arguments Return {A} a.
Arguments Panic {A} p.

(** [s[i]] *)
Definition index (s : list byte) (i : Z) : option byte :=
  if i <? 0 then None else s !! Z.to_nat i.

(** [s[i] = b] *)
Definition set_index (s : list byte) (i : Z) (b : byte) : option (list byte) :=
  if (0 <=? i) && (i <? Z.of_nat (length s)) then Some (<[Z.to_nat i := b]> s)
  else None.

(** [s[lo:hi]]: the window, when 0 <= lo <= hi <= len(s). *)
Definition slice (s : list byte) (lo hi : Z) : option (list byte) :=
  if (0 <=? lo) && (lo <=? hi) && (hi <=? Z.of_nat (length s))
  then Some (take (Z.to_nat (hi - lo)) (drop (Z.to_nat lo) s))
  else None.

(** [s[lo:]] is [s[lo:len(s)]]. *)
Definition slice_from (s : list byte) (lo : Z) : option (list byte) :=
  slice s lo (Z.of_nat (length s)).

(** [copy(dst, src)]: the contents of [dst] afterwards; the first
    min(len(dst), len(src)) elements are overwritten. *)
Definition copy (dst src : list byte) : list byte :=
  take (length dst) src ++ drop (length src) dst.

(** A window [s[lo:...]] shares its elements with [s]: [s] once the
    window holds [w]. *)
Definition write_back (s : list byte) (lo : Z) (w : list byte) : list byte :=
  take (Z.to_nat lo) s ++ w ++ drop (Z.to_nat lo + length w) s.

(** ** insertMeta *)

(** for _, area := range flashMap.SortedAreas() { writeFlashArea } *)
Fixpoint insertMeta_areas (areas : list flash.FlashArea) (buf : Buffer)
  : option NewtError * Buffer :=
  match areas with
  | [] => (None, buf)
  | area :: rest =>
      match writeFlashArea area buf with
      | (Some err, buf) => (Some err, buf)
      | (None, buf) => insertMeta_areas rest buf
      end
  end.

Inductive scan_result :=
| ScanErased
| ScanOccupied
| ScanPanic (p : panic).

(** The body of the loop, if section0Data[i] != 0xff { return ... },
    iterated from [i] on, [n] being the number of iterations left. *)
Fixpoint insertMeta_scan (n : nat) (section0Data : list byte) (i : Z) : scan_result :=
  match n with
  | O => ScanErased
  | S n' =>
      match index section0Data i with
      | None => ScanPanic (IndexOutOfRange i)
      | Some b =>
          if negb (Byte.eqb b xff) then ScanOccupied
          else insertMeta_scan n' section0Data (i + 1)
      end
  end.

(** for i := i; i < bound; i++ { ... }: the loop of the erased-space
    check, from [i] up to [bound]. *)
Definition scan_from (section0Data : list byte) (bound i : Z) : scan_result :=
  insertMeta_scan (Z.to_nat (bound - i)) section0Data i.

(** The hash offset and the error, with the image blob as the call
    leaves it. *)
Definition insertMeta (section0Data : list byte) (flashMap : flash.FlashMap)
  : result (Z * option NewtError) * list byte :=
  let buf : Buffer := [] in
  match writeHeader buf with
  | (Some err, _) => (Return (0, Some err), section0Data)
  | (None, buf) =>
  match insertMeta_areas (flash.SortedAreas flashMap) buf with
  | (Some err, _) => (Return (0, Some err), section0Data)
  | (None, buf) =>
  match writeZeroHash buf with
  | (Some err, _) => (Return (0, Some err), section0Data)
  | (None, buf) =>
  let hashSubOff := int_sub (Len buf) META_HASH_SZ in
  match writeFooter buf with
  | (Some err, _) => (Return (0, Some err), section0Data)
  | (None, buf) =>
  (* The meta region gets placed at the very end of the boot loader slot. *)
  match flash.Areas flashMap !! flash.FLASH_AREA_NAME_BOOTLOADER with
  | None =>
      (Return (0, Some (NewNewtError "Required boot loader flash area missing")),
       section0Data)
  | Some bootArea =>
      if flash.Size bootArea <? Len buf then
        (Return (0, Some (FmtNewtError
           "Boot loader flash area too small to accommodate meta region; boot=%d meta=%d"
           [flash.Size bootArea; Len buf])), section0Data)
      else
        let metaOff :=
          int_sub (int_add (flash.Offset bootArea) (flash.Size bootArea)) (Len buf) in
        match scan_from section0Data (flash.Size bootArea) metaOff with
        | ScanPanic p => (Panic p, section0Data)
        | ScanOccupied =>
            (Return (0, Some (FmtNewtError
               "Boot loader extends into meta region; meta region starts at offset %d"
               [metaOff])), section0Data)
        | ScanErased =>
            (* Copy the meta region into the manufacturing image.  The meta
               hash is still zeroed. *)
            match slice_from section0Data metaOff with
            | None =>
                (Panic (SliceBoundsOutOfRange metaOff (Z.of_nat (length section0Data))),
                 section0Data)
            | Some window =>
                (Return (int_add metaOff hashSubOff, None),
                 write_back section0Data metaOff (copy window buf))
            end
        end
  end end end end end.

(** The first half of [insertMeta] on its own (lines 134 to 153): the
    encoded region and the offset of the hash payload in it, or the error
    of the writer that failed. *)
Definition insertMeta_encode (areas : list flash.FlashArea) : NewtError + Buffer * Z :=
  let buf : Buffer := [] in
  match writeHeader buf with
  | (Some err, _) => inl err
  | (None, buf) =>
  match insertMeta_areas areas buf with
  | (Some err, _) => inl err
  | (None, buf) =>
  match writeZeroHash buf with
  | (Some err, _) => inl err
  | (None, buf) =>
  let hashSubOff := int_sub (Len buf) META_HASH_SZ in
  match writeFooter buf with
  | (Some err, _) => inl err
  | (None, buf) => inr (buf, hashSubOff)
  end end end end.

(** ** The hash patcher *)

Section Hash.

(** crypto/sha256: Sum256 returns a [32]byte. *)
Variable Sum256 : list byte -> vec byte 32.

(** for i := ...; i < META_HASH_SZ; i++ { mfgImageBlob[hashOffset+i] = 0 },
    with [n] the number of iterations left. *)
Fixpoint calcMetaHash_zero (n : nat) (mfgImageBlob : list byte)
    (hashOffset i : Z) : result unit * list byte :=
  match n with
  | O => (Return tt, mfgImageBlob)
  | S n' =>
      match set_index mfgImageBlob (int_add hashOffset i) x00 with
      | None => (Panic (IndexOutOfRange (int_add hashOffset i)), mfgImageBlob)
      | Some blob => calcMetaHash_zero n' blob hashOffset (i + 1)
      end
  end.

Definition calcMetaHash (mfgImageBlob : list byte) (hashOffset : Z)
  : result (list byte) * list byte :=
  (* Temporarily zero-out old contents for hash calculation. *)
  let oldContents := replicate (Z.to_nat META_HASH_SZ) x00 in
  match slice mfgImageBlob hashOffset (int_add hashOffset META_HASH_SZ) with
  | None =>
      (Panic (SliceBoundsOutOfRange hashOffset (int_add hashOffset META_HASH_SZ)),
       mfgImageBlob)
  | Some window =>
  let oldContents := copy oldContents window in
  match calcMetaHash_zero (Z.to_nat (META_HASH_SZ - 0)) mfgImageBlob hashOffset 0 with
  | (Panic p, blob) => (Panic p, blob)
  | (Return _, blob) =>
  (* Calculate hash. *)
  let hash := Sum256 blob in
  (* Restore old contents. *)
  match slice blob hashOffset (int_add hashOffset META_HASH_SZ) with
  | None =>
      (Panic (SliceBoundsOutOfRange hashOffset (int_add hashOffset META_HASH_SZ)),
       blob)
  | Some window =>
      (Return (vec_to_list hash),
       write_back blob hashOffset (copy window oldContents))
  end end end.

Definition fillMetaHash (mfgImageBlob : list byte) (hashOffset : Z)
  : result unit * list byte :=
  match calcMetaHash mfgImageBlob hashOffset with
  | (Panic p, blob) => (Panic p, blob)
  | (Return hash, blob) =>
      match slice blob hashOffset (int_add hashOffset META_HASH_SZ) with
      | None =>
          (Panic (SliceBoundsOutOfRange hashOffset (int_add hashOffset META_HASH_SZ)),
           blob)
      | Some window =>
          (Return tt, write_back blob hashOffset (copy window hash))
      end
  end.

End Hash.

(** ** The errors of insertMeta, by the name the specification gives them *)

Definition MissingRequiredArea : NewtError :=
  NewNewtError "Required boot loader flash area missing".

Definition RegionTooLarge (boot meta : Z) : NewtError :=
  FmtNewtError
    "Boot loader flash area too small to accommodate meta region; boot=%d meta=%d"
    [boot; meta].

Definition RegionSpaceOccupied (metaOff : Z) : NewtError :=
  FmtNewtError
    "Boot loader extends into meta region; meta region starts at offset %d"
    [metaOff].

(** [region] laid over [data] from index [off] on, as far as [data] reaches. *)
Definition splice (data : list byte) (off : nat) (region : list byte) : list byte :=
  take off data ++ take (length data - off) region ++ drop (off + length region) data.

(** The offset and the size of an area are Go ints, and so is its end. *)
Definition area_ints (area : flash.FlashArea) : Prop :=
  is_int (flash.Offset area) /\ is_int (flash.Size area)
  /\ is_int (flash.Offset area + flash.Size area).

(** ** The layout of the region

    The bytes each writer appends, and the region as their concatenation:
    what the buffer of [insertMeta] holds is proved equal to [metaRegion]
    below. *)

Definition headerBytes : list byte := [x01; xff; xff; xff].

Definition flashAreaTlv (area : flash.FlashArea) : list byte :=
  [x02; x0c; byte_of_Z (uint8 (flash.Id area)); byte_of_Z (uint8 (flash.Device area));
   xff; xff]
  ++ PutUint32 LittleEndian (uint32 (flash.Offset area))
  ++ PutUint32 LittleEndian (uint32 (flash.Size area)).

Definition zeroHashTlv : list byte := [x01; x20] ++ replicate 32 x00.

Definition footerBytes (len : Z) : list byte :=
  PutUint16 LittleEndian (uint16 (int_add len META_FOOTER_SZ))
  ++ [xff; xff] ++ [x69; xa2; xb2; x3b].

(** Header, flash-area TLVs and the zero hash TLV. *)
Definition metaBody (areas : list flash.FlashArea) : list byte :=
  headerBytes ++ flat_map flashAreaTlv areas ++ zeroHashTlv.

Definition metaRegion (areas : list flash.FlashArea) : list byte :=
  metaBody areas ++ footerBytes (Len (metaBody areas)).

(** The offset of the hash payload in the region, as line 149 computes it. *)
Definition hashSubOff (areas : list flash.FlashArea) : Z :=
  int_sub (Len (metaBody areas)) META_HASH_SZ.

(** ** Readers of the region, after the layout table of the specification *)

(** The last eight bytes of a region. *)
Definition footer_of (region : list byte) : list byte :=
  drop (length region - 8) region.

(** The size field, two bytes at end-8. *)
Definition footer_size (region : list byte) : option Z :=
  LittleEndian_Uint16 (take 2 (footer_of region)).

(** The magic field, four bytes at end-4. *)
Definition footer_magic (region : list byte) : option Z :=
  LittleEndian_Uint32 (drop 4 (footer_of region)).

(** The TLVs of a byte sequence: a code byte, a size byte and a payload of
    that size, one after the other; each TLV read uses one unit of fuel. *)
Fixpoint read_tlvs (fuel : nat) (bs : list byte) : option (list (Z * list byte)) :=
  match bs with
  | [] => Some []
  | code :: size :: rest =>
      match fuel with
      | O => None
      | S fuel' =>
          let n := Z.to_nat (Z_of_byte size) in
          if (n <=? length rest)%nat then
            match read_tlvs fuel' (drop n rest) with
            | Some tlvs => Some ((Z_of_byte code, take n rest) :: tlvs)
            | None => None
            end
          else None
      end
  | _ => None
  end.

(** The TLVs of a region lie between its 4-byte header and its 8-byte
    footer. *)
Definition region_tlvs (region : list byte) : option (list (Z * list byte)) :=
  read_tlvs (length region) (take (length region - 12) (drop 4 region)).

(** The payload of a flash-area TLV: areaId, deviceId, two pad bytes,
    offset and size. *)
Definition read_flash_area (payload : list byte) : option flash.FlashArea :=
  match payload with
  | [id; dev; _; _; o0; o1; o2; o3; s0; s1; s2; s3] =>
      match LittleEndian_Uint32 [o0; o1; o2; o3], LittleEndian_Uint32 [s0; s1; s2; s3] with
      | Some o, Some s =>
          Some {| flash.Id := Z_of_byte id; flash.Device := Z_of_byte dev;
                  flash.Offset := o; flash.Size := s |}
      | _, _ => None
      end
  | _ => None
  end.

(** The areas a region describes: its TLVs of code 0x02, in order. *)
Definition region_flash_areas (region : list byte) : option (list flash.FlashArea) :=
  match region_tlvs region with
  | Some tlvs =>
      mapM (fun t => read_flash_area (snd t))
        (filter (fun t => fst t = META_TLV_CODE_FLASH_AREA) tlvs)
  | None => None
  end.

(** What the fields of a flash-area TLV hold of an area: each value cut
    to the width of its field. *)
Definition as_stored (area : flash.FlashArea) : flash.FlashArea :=
  {| flash.Id := uint8 (flash.Id area); flash.Device := uint8 (flash.Device area);
     flash.Offset := uint32 (flash.Offset area); flash.Size := uint32 (flash.Size area) |}.

(** The values of an area fit the fields of its TLV. *)
Definition fits_tlv (area : flash.FlashArea) : Prop :=
  0 <= flash.Id area < 2 ^ 8 /\ 0 <= flash.Device area < 2 ^ 8
  /\ 0 <= flash.Offset area < 2 ^ 32 /\ 0 <= flash.Size area < 2 ^ 32.

(** The payload of the TLV of an area. *)
Definition flashAreaPayload (area : flash.FlashArea) : list byte :=
  drop 2 (flashAreaTlv area).

(** A sequence of [n] areas with identities 0 .. n-1, laid out one after
    the other. *)
Definition nth_area (i : nat) : flash.FlashArea :=
  {| flash.Id := Z.of_nat i; flash.Device := 0;
     flash.Offset := 0x1000 * Z.of_nat i; flash.Size := 0x1000 |}.

Definition many_areas (n : nat) : list flash.FlashArea := map nth_area (seq 0 n).

(** An area whose offset exceeds the 32 bits of its field in the TLV. *)
Definition wide_area : flash.FlashArea :=
  {| flash.Id := 1; flash.Device := 0; flash.Offset := 0x100000000; flash.Size := 0x1000 |}.

(** ** Flash maps of one area, the boot loader *)

Definition boot_area (offset size : Z) : flash.FlashArea :=
  {| flash.Id := 0; flash.Device := 0; flash.Offset := offset; flash.Size := size |}.

Definition boot_only (offset size : Z) : flash.FlashMap :=
  {| flash.Areas := {[ flash.FLASH_AREA_NAME_BOOTLOADER := boot_area offset size ]};
     flash.SortedAreas := [boot_area offset size] |}.

(** ** The hash field *)

(** A hash offset the blob has 32 bytes at. *)
Definition valid_hash_offset (blob : list byte) (hashOffset : Z) : Prop :=
  0 <= hashOffset
  /\ hashOffset + META_HASH_SZ <= Z.of_nat (length blob)
  /\ hashOffset + META_HASH_SZ <= max_int.

(** The 32 bytes at the hash offset. *)
Definition hash_field (blob : list byte) (hashOffset : Z) : list byte :=
  take 32 (drop (Z.to_nat hashOffset) blob).

(** The blob with its hash field replaced by [h]. *)
Definition with_hash_field (blob : list byte) (hashOffset : Z) (h : list byte) : list byte :=
  take (Z.to_nat hashOffset) blob ++ h ++ drop (Z.to_nat hashOffset + 32) blob.

(** The blob with its hash field replaced by zero. *)
Definition zero_field (blob : list byte) (hashOffset : Z) : list byte :=
  with_hash_field blob hashOffset (replicate 32 x00).

(** A stand-in for sha256.Sum256 to run the patcher on examples: 32
    times the sum of the bytes, modulo 256. *)
Definition checksum32 (m : list byte) : vec byte 32 :=
  vreplicate 32 (byte_of_Z (foldr (fun b acc => Z_of_byte b + acc) 0 m)).

(** ** Blobs of the examples *)

(** A blob of 64 erased bytes after the insertion for a boot-loader area
    at offset 4 of size 60: the hash field is at offset 24. *)
Definition inserted_blob : list byte :=
  replicate 4 xff ++ metaRegion [boot_area 4 60].

(** An erased blob of 124 bytes but for its byte at index 100. *)
Definition stained_blob : list byte :=
  replicate 100 xff ++ [x5a] ++ replicate 23 xff.

(** ** Finding the region again

    A reader of the image, as the footer allows it: the eight bytes before
    the end of the boot-loader area are the footer; when its magic is the
    right one, its size tells where the region starts. *)
Definition locate_region (blob : list byte) (area_end : Z) : option (list byte) :=
  match slice blob (area_end - META_FOOTER_SZ) area_end with
  | Some ftr =>
      match LittleEndian_Uint16 (take 2 ftr), LittleEndian_Uint32 (drop 4 ftr) with
      | Some size, Some magic =>
          if magic =? META_MAGIC then slice blob (area_end - size) area_end else None
      | _, _ => None
      end
  | None => None
  end.

(** * Properties *)

(** Closes the side conditions on the ints of a concrete area. *)
Ltac int_bounds := unfold area_ints, is_int, min_int, max_int; simpl; lia.

(** ** Bytes and the little-endian order *)

Lemma Z_of_byte_of_Z (z : Z) : Z_of_byte (byte_of_Z z) = z mod 256.
Proof.
  unfold Z_of_byte, byte_of_Z.
  assert (Hr : 0 <= z mod 256 < 256) by (apply Z.mod_pos_bound; lia).
  destruct (Byte.of_N (Z.to_N (z mod 256))) as [b|] eqn:E; simpl.
  - apply Byte.to_of_N in E. rewrite E. lia.
  - apply Byte.of_N_None_iff in E. lia.
Qed.

Lemma Z_of_byte_range (b : byte) : 0 <= Z_of_byte b < 256.
Proof.
  unfold Z_of_byte. pose proof (Byte.to_N_bounded b). lia.
Qed.

Lemma byte_of_Z_of_byte (b : byte) : byte_of_Z (Z_of_byte b) = b.
Proof.
  unfold byte_of_Z. rewrite Z.mod_small by apply Z_of_byte_range.
  unfold Z_of_byte. rewrite N2Z.id, Byte.of_to_N. reflexivity.
Qed.

Lemma Z_of_byte_inj (a b : byte) : Z_of_byte a = Z_of_byte b -> a = b.
Proof.
  intros H. rewrite <- (byte_of_Z_of_byte a), <- (byte_of_Z_of_byte b). now rewrite H.
Qed.

(** The low [k] bits of [v] below the next [m] bits of [v] are its low
    [k + m] bits. *)
Lemma lor_low_high (v k m : Z) :
  0 <= k -> 0 <= m ->
  Z.lor (v mod 2 ^ k) (Z.shiftl (Z.shiftr v k mod 2 ^ m) k) = v mod 2 ^ (k + m).
Proof.
  intros Hk Hm. apply Z.bits_inj'. intros n Hn.
  rewrite Z.lor_spec, Z.shiftl_spec by lia.
  destruct (Z.lt_ge_cases n k) as [Hlt|Hge].
  - rewrite (Z.testbit_neg_r _ (n - k)) by lia.
    rewrite !Z.mod_pow2_bits_low by lia. now rewrite orb_false_r.
  - rewrite (Z.mod_pow2_bits_high v k n) by lia. simpl.
    destruct (Z.lt_ge_cases n (k + m)) as [Hlt|Hge'].
    + rewrite !Z.mod_pow2_bits_low by lia.
      rewrite Z.shiftr_spec by lia. f_equal. lia.
    + rewrite !Z.mod_pow2_bits_high by lia. reflexivity.
Qed.

Lemma Uint16_PutUint16 (v : Z) :
  LittleEndian_Uint16 (PutUint16 LittleEndian v) = Some (v mod 2 ^ 16).
Proof.
  simpl. rewrite !Z_of_byte_of_Z. f_equal.
  change 256 with (2 ^ 8). apply (lor_low_high v 8 8); lia.
Qed.

Lemma Uint32_PutUint32 (v : Z) :
  LittleEndian_Uint32 (PutUint32 LittleEndian v) = Some (v mod 2 ^ 32).
Proof.
  simpl. rewrite !Z_of_byte_of_Z. f_equal.
  change 256 with (2 ^ 8).
  rewrite (lor_low_high v 8 8) by lia.
  replace (Z.shiftl (Z.shiftr v 24 mod 2 ^ 8) 24)
    with (Z.shiftl (Z.shiftl (Z.shiftr (Z.shiftr v 16) 8 mod 2 ^ 8) 8) 16).
  2:{ rewrite Z.shiftl_shiftl, Z.shiftr_shiftr by lia. reflexivity. }
  rewrite <- Z.shiftl_lor.
  rewrite (lor_low_high (Z.shiftr v 16) 8 8) by lia.
  apply (lor_low_high v 16 16); lia.
Qed.

Lemma wrap_int_small (z : Z) : is_int z -> wrap_int z = z.
Proof.
  unfold is_int, min_int, max_int, wrap_int. intros H.
  rewrite Z.mod_small; lia.
Qed.

Lemma wrap_int_is_int (z : Z) : is_int (wrap_int z).
Proof.
  unfold is_int, min_int, max_int, wrap_int.
  pose proof (Z.mod_pos_bound (z + 2 ^ 63) (2 ^ 64)). lia.
Qed.

Lemma wrap_int_congr (z : Z) : exists k, wrap_int z = z + k * 2 ^ 64.
Proof.
  unfold wrap_int. exists (- ((z + 2 ^ 63) / 2 ^ 64)).
  pose proof (Z.div_mod (z + 2 ^ 63) (2 ^ 64)). lia.
Qed.

Lemma uint16_int_add (a b : Z) : uint16 (int_add a b) = (a + b) mod 2 ^ 16.
Proof.
  unfold uint16, int_add. destruct (wrap_int_congr (a + b)) as [k ->].
  replace (k * 2 ^ 64) with (k * 2 ^ 48 * 2 ^ 16) by lia.
  apply Z.mod_add. lia.
Qed.

(** ** The writers append fixed encodings and return no error *)

Lemma writeElem_fixed {A} `{Reflect A} (elem : A) (buf : Buffer) :
  is_Some (dataSize (reflect elem)) ->
  writeElem elem buf = (None, buf ++ encode LittleEndian (reflect elem)).
Proof.
  intros [n Hn]. unfold writeElem, binary_Write. now rewrite Hn.
Qed.

Lemma writeHeader_eq (buf : Buffer) : writeHeader buf = (None, buf ++ headerBytes).
Proof. reflexivity. Qed.

Lemma writeFlashArea_eq (area : flash.FlashArea) (buf : Buffer) :
  writeFlashArea area buf = (None, buf ++ flashAreaTlv area).
Proof. reflexivity. Qed.

Lemma writeZeroHash_eq (buf : Buffer) : writeZeroHash buf = (None, buf ++ zeroHashTlv).
Proof. reflexivity. Qed.

Lemma writeFooter_eq (buf : Buffer) :
  writeFooter buf = (None, buf ++ footerBytes (Len buf)).
Proof. reflexivity. Qed.

Lemma insertMeta_areas_eq (areas : list flash.FlashArea) (buf : Buffer) :
  insertMeta_areas areas buf = (None, buf ++ flat_map flashAreaTlv areas).
Proof.
  revert buf. induction areas as [|a areas IH]; intros buf.
  - simpl. now rewrite app_nil_r.
  - cbn [insertMeta_areas flat_map]. rewrite writeFlashArea_eq, IH.
    now rewrite <- app_assoc.
Qed.

(** ** The buffer of insertMeta is the region *)

Lemma length_flashAreaTlv (area : flash.FlashArea) : length (flashAreaTlv area) = 14%nat.
Proof. reflexivity. Qed.

Lemma length_flat_map_flashAreaTlv (areas : list flash.FlashArea) :
  length (flat_map flashAreaTlv areas) = (14 * length areas)%nat.
Proof.
  induction areas as [|a areas IH]; [reflexivity|].
  cbn [flat_map]. rewrite length_app, IH, length_flashAreaTlv. simpl length. lia.
Qed.

Lemma Len_metaBody (areas : list flash.FlashArea) :
  Len (metaBody areas) = 38 + 14 * Z.of_nat (length areas).
Proof.
  unfold Len, metaBody. rewrite !length_app, length_flat_map_flashAreaTlv.
  change (length headerBytes) with 4%nat. change (length zeroHashTlv) with 34%nat. lia.
Qed.

Lemma Len_metaRegion (areas : list flash.FlashArea) :
  Len (metaRegion areas) = 46 + 14 * Z.of_nat (length areas).
Proof.
  unfold metaRegion. unfold Len at 1. rewrite length_app.
  pose proof (Len_metaBody areas) as Hb. unfold Len in Hb.
  change (length (footerBytes _)) with 8%nat. lia.
Qed.

Lemma insertMeta_eq (section0Data : list byte) (flashMap : flash.FlashMap) :
  insertMeta section0Data flashMap =
  let buf := metaRegion (flash.SortedAreas flashMap) in
  match flash.Areas flashMap !! flash.FLASH_AREA_NAME_BOOTLOADER with
  | None =>
      (Return (0, Some (NewNewtError "Required boot loader flash area missing")),
       section0Data)
  | Some bootArea =>
      if flash.Size bootArea <? Len buf then
        (Return (0, Some (FmtNewtError
           "Boot loader flash area too small to accommodate meta region; boot=%d meta=%d"
           [flash.Size bootArea; Len buf])), section0Data)
      else
        let metaOff :=
          int_sub (int_add (flash.Offset bootArea) (flash.Size bootArea)) (Len buf) in
        match scan_from section0Data (flash.Size bootArea) metaOff with
        | ScanPanic p => (Panic p, section0Data)
        | ScanOccupied =>
            (Return (0, Some (FmtNewtError
               "Boot loader extends into meta region; meta region starts at offset %d"
               [metaOff])), section0Data)
        | ScanErased =>
            match slice_from section0Data metaOff with
            | None =>
                (Panic (SliceBoundsOutOfRange metaOff (Z.of_nat (length section0Data))),
                 section0Data)
            | Some window =>
                (Return (int_add metaOff (hashSubOff (flash.SortedAreas flashMap)), None),
                 write_back section0Data metaOff (copy window buf))
            end
        end
  end.
Proof.
  unfold insertMeta.
  rewrite writeHeader_eq, insertMeta_areas_eq, writeZeroHash_eq, writeFooter_eq.
  cbv zeta. unfold hashSubOff, metaRegion, metaBody.
  rewrite !app_nil_l, <- !app_assoc. reflexivity.
Qed.

Lemma insertMeta_encode_eq (areas : list flash.FlashArea) :
  insertMeta_encode areas = inr (metaRegion areas, hashSubOff areas).
Proof.
  unfold insertMeta_encode.
  rewrite writeHeader_eq, insertMeta_areas_eq, writeZeroHash_eq, writeFooter_eq.
  cbv zeta. unfold hashSubOff, metaRegion, metaBody.
  rewrite !app_nil_l, <- !app_assoc. reflexivity.
Qed.

(** [insertMeta] is its first half followed by the placement. *)
Lemma insertMeta_split (section0Data : list byte) (flashMap : flash.FlashMap) :
  insertMeta section0Data flashMap =
  match insertMeta_encode (flash.SortedAreas flashMap) with
  | inl err => (Return (0, Some err), section0Data)
  | inr (buf, hashSubOff) =>
      match flash.Areas flashMap !! flash.FLASH_AREA_NAME_BOOTLOADER with
      | None => (Return (0, Some MissingRequiredArea), section0Data)
      | Some bootArea =>
          if flash.Size bootArea <? Len buf then
            (Return (0, Some (RegionTooLarge (flash.Size bootArea) (Len buf))),
             section0Data)
          else
            let metaOff :=
              int_sub (int_add (flash.Offset bootArea) (flash.Size bootArea)) (Len buf) in
            match scan_from section0Data (flash.Size bootArea) metaOff with
            | ScanPanic p => (Panic p, section0Data)
            | ScanOccupied =>
                (Return (0, Some (RegionSpaceOccupied metaOff)), section0Data)
            | ScanErased =>
                match slice_from section0Data metaOff with
                | None =>
                    (Panic (SliceBoundsOutOfRange metaOff
                              (Z.of_nat (length section0Data))), section0Data)
                | Some window =>
                    (Return (int_add metaOff hashSubOff, None),
                     write_back section0Data metaOff (copy window buf))
                end
            end
      end
  end.
Proof.
  rewrite insertMeta_eq, insertMeta_encode_eq. reflexivity.
Qed.

(** ** The footer *)

Lemma footer_of_metaRegion (areas : list flash.FlashArea) :
  footer_of (metaRegion areas) = footerBytes (Len (metaBody areas)).
Proof.
  unfold footer_of, metaRegion. apply drop_app_length'.
  rewrite length_app. change (length (footerBytes _)) with 8%nat. lia.
Qed.

Lemma footer_size_metaRegion (areas : list flash.FlashArea) :
  footer_size (metaRegion areas) = Some (Len (metaRegion areas) mod 2 ^ 16).
Proof.
  unfold footer_size. rewrite footer_of_metaRegion.
  unfold footerBytes. cbn [take app PutUint16].
  change [byte_of_Z ?v; byte_of_Z (Z.shiftr ?v 8)] with (PutUint16 LittleEndian v).
  rewrite Uint16_PutUint16, uint16_int_add.
  rewrite Z.mod_mod by lia.
  rewrite Len_metaRegion, Len_metaBody. unfold META_FOOTER_SZ.
  do 2 f_equal. lia.
Qed.

(** C3, as amended.  For every sequence of areas the encoding succeeds
    and gives [metaRegion].  The footer's size field holds the total byte
    length of the region (footer included) reduced modulo 2^16, the field
    being a uint16: [writeFooter] stores uint16(buf.Len() + 8).  It is the
    exact length whenever the region is shorter than 65536 bytes.  The
    last four bytes are the magic 0x3BB2A269 in little-endian order. *)
Theorem footer_size_and_magic (areas : list flash.FlashArea) :
  let region := metaRegion areas in
  insertMeta_encode areas = inr (region, hashSubOff areas)
  /\ (forall buf, writeFooter buf = (None, buf ++ footerBytes (Len buf)))
  /\ footer_size region = Some (Len region mod 2 ^ 16)
  /\ (Len region < 2 ^ 16 -> footer_size region = Some (Len region))
  /\ drop (length region - 4) region = [x69; xa2; xb2; x3b]
  /\ footer_magic region = Some META_MAGIC.
Proof.
  cbv zeta. split; [apply insertMeta_encode_eq|].
  split; [exact writeFooter_eq|].
  split; [apply footer_size_metaRegion|].
  split.
  - intros Hlt. rewrite footer_size_metaRegion. f_equal.
    apply Z.mod_small. unfold Len in *. lia.
  - split.
    + unfold metaRegion, footerBytes. rewrite !app_assoc.
      apply drop_app_length'. rewrite !length_app. simpl length. lia.
    + unfold footer_magic. rewrite footer_of_metaRegion. reflexivity.
Qed.

(** The claim as stated fails for a map of 4678 areas: the region is
    65538 bytes long and its footer says 2. *)
Lemma footer_size_wraps :
  insertMeta_encode (many_areas 4678)
  = inr (metaRegion (many_areas 4678), hashSubOff (many_areas 4678))
  /\ Len (metaRegion (many_areas 4678)) = 65538
  /\ footer_size (metaRegion (many_areas 4678)) = Some 2
  /\ footer_size (metaRegion (many_areas 4678))
     <> Some (Len (metaRegion (many_areas 4678))).
Proof.
  assert (HL : Len (metaRegion (many_areas 4678)) = 65538).
  { rewrite Len_metaRegion. unfold many_areas. rewrite length_map, length_seq. reflexivity. }
  assert (HS : footer_size (metaRegion (many_areas 4678)) = Some 2).
  { rewrite footer_size_metaRegion, HL. reflexivity. }
  split; [apply insertMeta_encode_eq|].
  split; [exact HL|]. split; [exact HS|].
  rewrite HS, HL. discriminate.
Qed.

(** ** The flash-area TLVs *)

Lemma read_tlvs_flashAreas (areas : list flash.FlashArea) (fuel : nat) (rest : list byte) :
  read_tlvs (length areas + fuel) (flat_map flashAreaTlv areas ++ rest) =
  match read_tlvs fuel rest with
  | Some tlvs =>
      Some (map (fun a => (META_TLV_CODE_FLASH_AREA, flashAreaPayload a)) areas ++ tlvs)
  | None => None
  end.
Proof.
  induction areas as [|a areas IH].
  - simpl. now destruct (read_tlvs fuel rest).
  - cbn [flat_map length Nat.add]. rewrite <- app_assoc.
    unfold flashAreaTlv at 1. cbn [app read_tlvs].
    change (Z.to_nat (Z_of_byte x0c)) with 12%nat.
    change (Z_of_byte x02) with META_TLV_CODE_FLASH_AREA.
    match goal with |- context [Nat.leb 12 (length ?l)] =>
      replace (Nat.leb 12 (length l)) with true
        by (symmetry; apply Nat.leb_le; simpl; lia)
    end.
    cbn [drop take app PutUint32].
    rewrite drop_0, take_0, IH.
    destruct (read_tlvs fuel rest); reflexivity.
Qed.

Lemma read_flash_area_payload (area : flash.FlashArea) :
  read_flash_area (flashAreaPayload area) = Some (as_stored area).
Proof.
  unfold flashAreaPayload, flashAreaTlv. cbn [app drop PutUint32 read_flash_area].
  change [byte_of_Z ?v; byte_of_Z (Z.shiftr ?v 8); byte_of_Z (Z.shiftr ?v 16);
          byte_of_Z (Z.shiftr ?v 24)] with (PutUint32 LittleEndian v).
  rewrite !Uint32_PutUint32, !Z_of_byte_of_Z.
  unfold as_stored, uint8, uint32. change 256 with (2 ^ 8).
  rewrite !Z.mod_mod by lia. reflexivity.
Qed.

Lemma as_stored_fits (area : flash.FlashArea) : fits_tlv area -> as_stored area = area.
Proof.
  destruct area as [i d o s]. unfold fits_tlv, as_stored, uint8, uint32. simpl.
  intros (Hi & Hd & Ho & Hs). rewrite !Z.mod_small by lia. reflexivity.
Qed.

Lemma region_tlvs_metaRegion (areas : list flash.FlashArea) :
  region_tlvs (metaRegion areas) =
  Some (map (fun a => (META_TLV_CODE_FLASH_AREA, flashAreaPayload a)) areas
        ++ [(META_TLV_CODE_HASH, replicate 32 x00)]).
Proof.
  unfold region_tlvs.
  pose proof (Len_metaRegion areas) as HL. unfold Len in HL.
  pose proof (length_flat_map_flashAreaTlv areas) as HF.
  replace (take (length (metaRegion areas) - 12) (drop 4 (metaRegion areas)))
    with (flat_map flashAreaTlv areas ++ zeroHashTlv).
  - replace (length (metaRegion areas))
      with (length areas + (46 + 13 * length areas))%nat by lia.
    rewrite read_tlvs_flashAreas. reflexivity.
  - unfold metaRegion, metaBody. rewrite <- !app_assoc.
    change (drop 4 (headerBytes ++ ?l)) with l.
    rewrite (app_assoc (flat_map flashAreaTlv areas) zeroHashTlv).
    symmetry. apply take_app_length'.
    rewrite !length_app, HF. change (length zeroHashTlv) with 34%nat.
    change (length headerBytes) with 4%nat.
    change (length (footerBytes _)) with 8%nat. lia.
Qed.

Lemma filter_flash_area_tlvs (areas : list flash.FlashArea) :
  filter (fun t : Z * list byte => fst t = META_TLV_CODE_FLASH_AREA)
    (map (fun a => (META_TLV_CODE_FLASH_AREA, flashAreaPayload a)) areas
     ++ [(META_TLV_CODE_HASH, replicate 32 x00)])
  = map (fun a => (META_TLV_CODE_FLASH_AREA, flashAreaPayload a)) areas.
Proof.
  induction areas as [|a areas IH]; [reflexivity|].
  cbn [map app]. rewrite filter_cons_True by reflexivity. now rewrite IH.
Qed.

Lemma mapM_read_flash_area (areas : list flash.FlashArea) :
  mapM (fun t : Z * list byte => read_flash_area (snd t))
    (map (fun a => (META_TLV_CODE_FLASH_AREA, flashAreaPayload a)) areas)
  = Some (map as_stored areas).
Proof.
  induction areas as [|a areas IH]; [reflexivity|].
  cbn [map mapM]. cbn [snd]. rewrite read_flash_area_payload. cbn [mbind option_bind].
  rewrite IH. reflexivity.
Qed.

Lemma region_flash_areas_metaRegion (areas : list flash.FlashArea) :
  region_flash_areas (metaRegion areas) = Some (map as_stored areas).
Proof.
  unfold region_flash_areas.
  rewrite region_tlvs_metaRegion, filter_flash_area_tlvs.
  apply mapM_read_flash_area.
Qed.

(** C6, as amended.  For every sequence of areas the encoding succeeds
    and gives [metaRegion], which holds one flash-area TLV (code 0x02, payload size 12) per area, in sequence
    order, followed by the hash TLV; the fields of each TLV hold the
    area's id and device reduced modulo 2^8 and its offset and size
    reduced modulo 2^32 (the conversions uint8(...) and uint32(...) of
    [writeFlashArea]), hence the values verbatim whenever they fit the
    fields. *)
Theorem flash_area_tlvs (areas : list flash.FlashArea) :
  insertMeta_encode areas = inr (metaRegion areas, hashSubOff areas)
  /\ region_tlvs (metaRegion areas) =
    Some (map (fun a => (META_TLV_CODE_FLASH_AREA, flashAreaPayload a)) areas
          ++ [(META_TLV_CODE_HASH, replicate 32 x00)])
  /\ (forall a buf,
        writeFlashArea a buf = (None, buf ++ [x02; x0c] ++ flashAreaPayload a)
        /\ Z.of_nat (length (flashAreaPayload a)) = META_TLV_FLASH_AREA_SZ
        /\ read_flash_area (flashAreaPayload a) = Some (as_stored a))
  /\ region_flash_areas (metaRegion areas) = Some (map as_stored areas)
  /\ (Forall fits_tlv areas -> region_flash_areas (metaRegion areas) = Some areas).
Proof.
  split; [apply insertMeta_encode_eq|].
  split; [apply region_tlvs_metaRegion|].
  split.
  { intros a buf. split; [apply writeFlashArea_eq|].
    split; [reflexivity|apply read_flash_area_payload]. }
  split; [apply region_flash_areas_metaRegion|].
  intros Hfit. rewrite region_flash_areas_metaRegion. f_equal.
  induction Hfit as [|a areas Ha _ IH]; [reflexivity|].
  cbn [map]. now rewrite as_stored_fits, IH.
Qed.

(** The claim as stated fails for an area at offset 2^32: its TLV holds
    the offset 0. *)
Lemma flash_area_tlv_truncates :
  insertMeta_encode [wide_area] = inr (metaRegion [wide_area], 20)
  /\ region_flash_areas (metaRegion [wide_area]) =
       Some [ {| flash.Id := 1; flash.Device := 0; flash.Offset := 0;
                 flash.Size := 0x1000 |} ]
  /\ region_flash_areas (metaRegion [wide_area]) <> Some [wide_area].
Proof.
  assert (H : region_flash_areas (metaRegion [wide_area]) =
    Some [ {| flash.Id := 1; flash.Device := 0; flash.Offset := 0;
              flash.Size := 0x1000 |} ])
    by (vm_compute; reflexivity).
  split; [vm_compute; reflexivity|].
  split; [exact H|]. rewrite H. unfold wide_area. intros [=].
Qed.

(** ** Indexing and the erased-space scan *)

Lemma index_Some (data : list byte) (i : Z) (b : byte) :
  index data i = Some b <-> 0 <= i /\ data !! Z.to_nat i = Some b.
Proof.
  unfold index. destruct (Z.ltb_spec i 0); split.
  - discriminate.
  - lia.
  - intros E. split; [lia|exact E].
  - now intros [_ E].
Qed.

Lemma index_None (data : list byte) (i : Z) :
  index data i = None <-> i < 0 \/ Z.of_nat (length data) <= i.
Proof.
  unfold index. destruct (Z.ltb_spec i 0).
  - split; [intros _; now left|reflexivity].
  - rewrite lookup_ge_None. lia.
Qed.

Lemma index_is_Some (data : list byte) (i : Z) :
  0 <= i < Z.of_nat (length data) -> is_Some (index data i).
Proof.
  intros H. destruct (index data i) eqn:E; [eauto|].
  apply index_None in E. lia.
Qed.

(** The recursion on the iteration count is the loop of the source. *)
Lemma scan_from_loop (section0Data : list byte) (bound i : Z) :
  scan_from section0Data bound i =
  if i <? bound then
    match index section0Data i with
    | None => ScanPanic (IndexOutOfRange i)
    | Some b =>
        if negb (Byte.eqb b xff) then ScanOccupied
        else scan_from section0Data bound (i + 1)
    end
  else ScanErased.
Proof.
  unfold scan_from. destruct (Z.ltb_spec i bound) as [Hlt|Hge].
  - replace (Z.to_nat (bound - i)) with (S (Z.to_nat (bound - (i + 1)))) by lia.
    reflexivity.
  - replace (Z.to_nat (bound - i)) with 0%nat by lia. reflexivity.
Qed.

Lemma eqb_xff (b : byte) : negb (Byte.eqb b xff) = false <-> b = xff.
Proof.
  rewrite negb_false_iff. split.
  - apply Byte.byte_dec_bl.
  - apply Byte.byte_dec_lb.
Qed.

Lemma scan_erased_iff (n : nat) (data : list byte) (i : Z) :
  insertMeta_scan n data i = ScanErased <->
  forall k, (k < n)%nat -> index data (i + Z.of_nat k) = Some xff.
Proof.
  revert i. induction n as [|n IH]; intros i.
  - simpl. split; [intros _ k Hk; lia|reflexivity].
  - cbn [insertMeta_scan]. destruct (index data i) as [b|] eqn:E.
    + destruct (negb (Byte.eqb b xff)) eqn:Eb.
      * split; [discriminate|]. intros H. specialize (H 0%nat ltac:(lia)).
        rewrite Z.add_0_r, E in H. injection H as ->. discriminate.
      * apply eqb_xff in Eb. subst b. rewrite IH. split.
        -- intros H [|k] Hk; [now rewrite Z.add_0_r|].
           specialize (H k ltac:(lia)).
           now replace (i + Z.of_nat (S k)) with (i + 1 + Z.of_nat k) by lia.
        -- intros H k Hk. specialize (H (S k) ltac:(lia)).
           now replace (i + Z.of_nat (S k)) with (i + 1 + Z.of_nat k) in H by lia.
    + split; [discriminate|]. intros H. specialize (H 0%nat ltac:(lia)).
      rewrite Z.add_0_r, E in H. discriminate.
Qed.

(** The scan stops at the first index that is not an erased byte: with
    an error when it holds another byte, with a panic when it is out of
    range. *)
Lemma scan_occupied_iff (n : nat) (data : list byte) (i : Z) :
  insertMeta_scan n data i = ScanOccupied <->
  exists k b, (k < n)%nat /\ index data (i + Z.of_nat k) = Some b /\ b <> xff
    /\ forall j, (j < k)%nat -> index data (i + Z.of_nat j) = Some xff.
Proof.
  revert i. induction n as [|n IH]; intros i.
  - simpl. split; [discriminate|]. intros (k & b & Hk & _). lia.
  - cbn [insertMeta_scan]. destruct (index data i) as [b|] eqn:E.
    + destruct (negb (Byte.eqb b xff)) eqn:Eb.
      * split; [intros _|reflexivity]. exists 0%nat, b.
        rewrite Z.add_0_r. repeat split; [lia|exact E| |intros j Hj; lia].
        intros ->. discriminate.
      * apply eqb_xff in Eb. subst b. rewrite IH. split.
        -- intros (k & b & Hk & Hb & Hne & Hlow). exists (S k), b.
           replace (i + Z.of_nat (S k)) with (i + 1 + Z.of_nat k) by lia.
           repeat split; [lia|exact Hb|exact Hne|].
           intros [|j] Hj; [now rewrite Z.add_0_r|].
           replace (i + Z.of_nat (S j)) with (i + 1 + Z.of_nat j) by lia.
           apply Hlow. lia.
        -- intros (k & b & Hk & Hb & Hne & Hlow). destruct k as [|k].
           { rewrite Z.add_0_r, E in Hb. congruence. }
           exists k, b.
           replace (i + Z.of_nat (S k)) with (i + 1 + Z.of_nat k) in Hb by lia.
           repeat split; [lia|exact Hb|exact Hne|].
           intros j Hj. specialize (Hlow (S j) ltac:(lia)).
           now replace (i + Z.of_nat (S j)) with (i + 1 + Z.of_nat j) in Hlow by lia.
    + split; [discriminate|]. intros (k & b & Hk & Hb & Hne & Hlow).
      destruct k as [|k].
      * rewrite Z.add_0_r, E in Hb. discriminate.
      * specialize (Hlow 0%nat ltac:(lia)). rewrite Z.add_0_r, E in Hlow. discriminate.
Qed.

Lemma scan_panic_iff (n : nat) (data : list byte) (i : Z) (p : panic) :
  insertMeta_scan n data i = ScanPanic p <->
  exists k, (k < n)%nat /\ index data (i + Z.of_nat k) = None
    /\ p = IndexOutOfRange (i + Z.of_nat k)
    /\ forall j, (j < k)%nat -> index data (i + Z.of_nat j) = Some xff.
Proof.
  revert i. induction n as [|n IH]; intros i.
  - simpl. split; [discriminate|]. intros (k & Hk & _). lia.
  - cbn [insertMeta_scan]. destruct (index data i) as [b|] eqn:E.
    + destruct (negb (Byte.eqb b xff)) eqn:Eb.
      * split; [discriminate|]. intros (k & Hk & Hb & _ & Hlow).
        destruct k as [|k].
        -- rewrite Z.add_0_r, E in Hb. discriminate.
        -- specialize (Hlow 0%nat ltac:(lia)). rewrite Z.add_0_r, E in Hlow.
           injection Hlow as ->. discriminate.
      * apply eqb_xff in Eb. subst b. rewrite IH. split.
        -- intros (k & Hk & Hb & -> & Hlow). exists (S k).
           replace (i + Z.of_nat (S k)) with (i + 1 + Z.of_nat k) by lia.
           repeat split; [lia|exact Hb|].
           intros [|j] Hj; [now rewrite Z.add_0_r|].
           replace (i + Z.of_nat (S j)) with (i + 1 + Z.of_nat j) by lia.
           apply Hlow. lia.
        -- intros (k & Hk & Hb & -> & Hlow). destruct k as [|k].
           { rewrite Z.add_0_r, E in Hb. discriminate. }
           exists k.
           replace (i + Z.of_nat (S k)) with (i + 1 + Z.of_nat k) in * by lia.
           repeat split; [lia|exact Hb|].
           intros j Hj. specialize (Hlow (S j) ltac:(lia)).
           now replace (i + Z.of_nat (S j)) with (i + 1 + Z.of_nat j) in Hlow by lia.
    + split.
      * intros [= <-]. exists 0%nat. rewrite Z.add_0_r.
        repeat split; [lia|exact E|intros j Hj; lia].
      * intros (k & Hk & Hb & -> & Hlow). destruct k as [|k].
        -- now rewrite Z.add_0_r.
        -- specialize (Hlow 0%nat ltac:(lia)). rewrite Z.add_0_r, E in Hlow. discriminate.
Qed.

(** ** Slices, copy and write-back *)

Lemma slice_from_Some (data : list byte) (lo : Z) (w : list byte) :
  slice_from data lo = Some w <->
  0 <= lo <= Z.of_nat (length data) /\ w = drop (Z.to_nat lo) data.
Proof.
  unfold slice_from, slice.
  destruct (Z.leb_spec 0 lo); destruct (Z.leb_spec lo (Z.of_nat (length data)));
    rewrite ?Z.leb_refl; cbn [andb]; try (split; [discriminate|lia]).
  rewrite take_ge by (rewrite length_drop; lia).
  split; [intros [= <-]; split; [lia|reflexivity]|intros [_ ->]; reflexivity].
Qed.

Lemma slice_from_None (data : list byte) (lo : Z) :
  slice_from data lo = None <-> lo < 0 \/ Z.of_nat (length data) < lo.
Proof.
  destruct (slice_from data lo) as [w|] eqn:E.
  - apply slice_from_Some in E. split; [discriminate|lia].
  - split; [intros _|reflexivity].
    destruct (Z.lt_ge_cases lo 0); [now left|].
    destruct (Z.lt_ge_cases (Z.of_nat (length data)) lo); [now right|].
    assert (slice_from data lo = Some (drop (Z.to_nat lo) data))
      by (apply slice_from_Some; split; [lia|reflexivity]).
    congruence.
Qed.

Lemma slice_Some (data : list byte) (lo hi : Z) (w : list byte) :
  slice data lo hi = Some w <->
  0 <= lo <= hi /\ hi <= Z.of_nat (length data)
  /\ w = take (Z.to_nat (hi - lo)) (drop (Z.to_nat lo) data).
Proof.
  unfold slice.
  destruct (Z.leb_spec 0 lo); destruct (Z.leb_spec lo hi);
    destruct (Z.leb_spec hi (Z.of_nat (length data)));
    cbn [andb]; try (split; [discriminate|lia]).
  split; [intros [= <-]; repeat split; lia|intros (_ & _ & ->); reflexivity].
Qed.

Lemma length_copy (dst src : list byte) : length (copy dst src) = length dst.
Proof.
  unfold copy. rewrite length_app, length_take, length_drop. lia.
Qed.

Lemma write_back_copy (data : list byte) (lo : Z) (buf : list byte) :
  0 <= lo <= Z.of_nat (length data) ->
  write_back data lo (copy (drop (Z.to_nat lo) data) buf)
  = splice data (Z.to_nat lo) buf.
Proof.
  intros Hlo. unfold write_back, splice. rewrite length_copy, length_drop.
  unfold copy. rewrite length_drop, drop_drop, <- !app_assoc.
  rewrite (drop_ge data (Z.to_nat lo + (length data - Z.to_nat lo))) by lia.
  now rewrite app_nil_r.
Qed.

Lemma length_splice (data : list byte) (off : nat) (region : list byte) :
  (off <= length data)%nat -> length (splice data off region) = length data.
Proof.
  intros H. unfold splice. rewrite !length_app, !length_take, length_drop. lia.
Qed.

Lemma lookup_splice_before (data : list byte) (off : nat) (region : list byte) (i : nat) :
  (i < off)%nat -> (off <= length data)%nat -> splice data off region !! i = data !! i.
Proof.
  intros Hi Hoff. unfold splice.
  rewrite lookup_app_l by (rewrite length_take; lia).
  now apply lookup_take_lt.
Qed.

Lemma lookup_splice_inside (data : list byte) (off : nat) (region : list byte) (i : nat) :
  (off <= i < off + length region)%nat -> (i < length data)%nat ->
  splice data off region !! i = region !! (i - off)%nat.
Proof.
  intros Hi Hlen. unfold splice.
  rewrite lookup_app_r by (rewrite length_take; lia).
  rewrite length_take, Nat.min_l by lia.
  rewrite lookup_app_l by (rewrite length_take; lia).
  apply lookup_take_lt. lia.
Qed.

Lemma lookup_splice_after (data : list byte) (off : nat) (region : list byte) (i : nat) :
  (off + length region <= i)%nat -> (off <= length data)%nat ->
  splice data off region !! i = data !! i.
Proof.
  intros Hi Hoff. unfold splice.
  destruct (Nat.lt_ge_cases i (length data)) as [Hlt|Hge].
  - rewrite lookup_app_r by (rewrite length_take; lia).
    rewrite length_take, Nat.min_l by lia.
    rewrite lookup_app_r by (rewrite length_take; lia).
    rewrite length_take, Nat.min_r by lia.
    rewrite lookup_drop. f_equal. lia.
  - rewrite (proj2 (lookup_ge_None data i)) by lia.
    apply lookup_ge_None. rewrite !length_app, !length_take, length_drop. lia.
Qed.

Lemma splice_fits (data : list byte) (off : nat) (region : list byte) :
  (off + length region <= length data)%nat ->
  splice data off region = take off data ++ region ++ drop (off + length region) data.
Proof.
  intros H. unfold splice. now rewrite (take_ge region) by lia.
Qed.

(** ** Integer arithmetic of insertMeta stays within the ints *)

Lemma int_add_small (a b : Z) : is_int (a + b) -> int_add a b = a + b.
Proof. apply wrap_int_small. Qed.

Lemma int_sub_small (a b : Z) : is_int (a - b) -> int_sub a b = a - b.
Proof. apply wrap_int_small. Qed.

Lemma insertMeta_ints (bootArea : flash.FlashArea) (areas : list flash.FlashArea) :
  area_ints bootArea ->
  Len (metaRegion areas) <= flash.Size bootArea ->
  int_sub (int_add (flash.Offset bootArea) (flash.Size bootArea)) (Len (metaRegion areas))
    = flash.Offset bootArea + flash.Size bootArea - Len (metaRegion areas)
  /\ hashSubOff areas = Len (metaBody areas) - META_HASH_SZ
  /\ int_add (flash.Offset bootArea + flash.Size bootArea - Len (metaRegion areas))
       (hashSubOff areas)
     = flash.Offset bootArea + flash.Size bootArea - Len (metaRegion areas)
       + (Len (metaBody areas) - META_HASH_SZ).
Proof.
  intros (Ho & Hs & Hos) HL.
  pose proof (Len_metaRegion areas) as HR. pose proof (Len_metaBody areas) as HB.
  unfold is_int, min_int, max_int, META_HASH_SZ in *.
  assert (E1 : hashSubOff areas = Len (metaBody areas) - 32).
  { unfold hashSubOff, META_HASH_SZ. apply int_sub_small.
    unfold is_int, min_int, max_int. lia. }
  rewrite int_add_small by (unfold is_int, min_int, max_int; lia).
  rewrite int_sub_small by (unfold is_int, min_int, max_int; lia).
  split; [reflexivity|]. split; [exact E1|].
  rewrite E1. apply int_add_small. unfold is_int, min_int, max_int. lia.
Qed.

(** ** The outcomes of insertMeta *)

Lemma insertMeta_missing (data : list byte) (fm : flash.FlashMap) :
  flash.Areas fm !! flash.FLASH_AREA_NAME_BOOTLOADER = None ->
  insertMeta data fm = (Return (0, Some MissingRequiredArea), data).
Proof.
  intros H. rewrite insertMeta_eq. cbv zeta. now rewrite H.
Qed.

Lemma insertMeta_too_large (data : list byte) (fm : flash.FlashMap)
    (bootArea : flash.FlashArea) :
  flash.Areas fm !! flash.FLASH_AREA_NAME_BOOTLOADER = Some bootArea ->
  flash.Size bootArea < Len (metaRegion (flash.SortedAreas fm)) ->
  insertMeta data fm =
    (Return (0, Some (RegionTooLarge (flash.Size bootArea)
                        (Len (metaRegion (flash.SortedAreas fm))))), data).
Proof.
  intros H Hlt. rewrite insertMeta_eq. cbv zeta. rewrite H.
  now rewrite (proj2 (Z.ltb_lt _ _) Hlt).
Qed.

Lemma insertMeta_placed (data : list byte) (fm : flash.FlashMap)
    (bootArea : flash.FlashArea) :
  flash.Areas fm !! flash.FLASH_AREA_NAME_BOOTLOADER = Some bootArea ->
  Len (metaRegion (flash.SortedAreas fm)) <= flash.Size bootArea ->
  insertMeta data fm =
    let region := metaRegion (flash.SortedAreas fm) in
    let metaOff :=
      int_sub (int_add (flash.Offset bootArea) (flash.Size bootArea)) (Len region) in
    match scan_from data (flash.Size bootArea) metaOff with
    | ScanPanic p => (Panic p, data)
    | ScanOccupied => (Return (0, Some (RegionSpaceOccupied metaOff)), data)
    | ScanErased =>
        if (0 <=? metaOff) && (metaOff <=? Z.of_nat (length data)) then
          (Return (int_add metaOff (hashSubOff (flash.SortedAreas fm)), None),
           splice data (Z.to_nat metaOff) region)
        else
          (Panic (SliceBoundsOutOfRange metaOff (Z.of_nat (length data))), data)
    end.
Proof.
  intros H Hle. rewrite insertMeta_eq. cbv zeta. rewrite H.
  rewrite (proj2 (Z.ltb_ge _ _) Hle).
  destruct (scan_from data _ _); try reflexivity.
  destruct (slice_from data _) as [w|] eqn:E.
  - apply slice_from_Some in E as [Hr ->].
    rewrite write_back_copy by exact Hr.
    rewrite (proj2 (Z.leb_le _ _)), (proj2 (Z.leb_le _ _)) by lia. reflexivity.
  - apply slice_from_None in E.
    destruct (Z.leb_spec 0 (int_sub (int_add (flash.Offset bootArea) (flash.Size bootArea))
                              (Len (metaRegion (flash.SortedAreas fm)))));
      destruct (Z.leb_spec (int_sub (int_add (flash.Offset bootArea) (flash.Size bootArea))
                              (Len (metaRegion (flash.SortedAreas fm))))
                  (Z.of_nat (length data))); cbn [andb]; try reflexivity; lia.
Qed.

(** Whatever the outcome, a blob other than the one handed over is the
    region laid over it at the offset computed from the boot-loader
    area. *)
Lemma insertMeta_outcome (data : list byte) (fm : flash.FlashMap) :
  let region := metaRegion (flash.SortedAreas fm) in
  match insertMeta data fm with
  | (Panic _, data') => data' = data
  | (Return (off, Some e), data') =>
      data' = data /\ off = 0
      /\ (e = MissingRequiredArea
          \/ (exists bootArea,
                flash.Areas fm !! flash.FLASH_AREA_NAME_BOOTLOADER = Some bootArea
                /\ e = RegionTooLarge (flash.Size bootArea) (Len region))
          \/ (exists bootArea,
                flash.Areas fm !! flash.FLASH_AREA_NAME_BOOTLOADER = Some bootArea
                /\ e = RegionSpaceOccupied
                         (int_sub (int_add (flash.Offset bootArea) (flash.Size bootArea))
                                  (Len region))))
  | (Return (off, None), data') =>
      exists bootArea,
        flash.Areas fm !! flash.FLASH_AREA_NAME_BOOTLOADER = Some bootArea
        /\ Len region <= flash.Size bootArea
        /\ let metaOff :=
             int_sub (int_add (flash.Offset bootArea) (flash.Size bootArea)) (Len region) in
           scan_from data (flash.Size bootArea) metaOff = ScanErased
           /\ 0 <= metaOff <= Z.of_nat (length data)
           /\ off = int_add metaOff (hashSubOff (flash.SortedAreas fm))
           /\ data' = splice data (Z.to_nat metaOff) region
  end.
Proof.
  cbv zeta.
  destruct (flash.Areas fm !! flash.FLASH_AREA_NAME_BOOTLOADER) as [b|] eqn:Hb.
  2:{ rewrite insertMeta_missing by exact Hb. auto. }
  destruct (Z.lt_ge_cases (flash.Size b) (Len (metaRegion (flash.SortedAreas fm))))
    as [Hlt|Hge].
  { rewrite (insertMeta_too_large data fm b) by assumption.
    split; [reflexivity|]. split; [reflexivity|]. right. left. eauto. }
  rewrite (insertMeta_placed data fm b) by assumption. cbv zeta.
  destruct (scan_from data (flash.Size b) _) eqn:Es.
  - destruct (Z.leb_spec 0 (int_sub (int_add (flash.Offset b) (flash.Size b))
                              (Len (metaRegion (flash.SortedAreas fm)))));
      destruct (Z.leb_spec (int_sub (int_add (flash.Offset b) (flash.Size b))
                              (Len (metaRegion (flash.SortedAreas fm))))
                  (Z.of_nat (length data))); cbn [andb]; try reflexivity.
    exists b. repeat split; try assumption; reflexivity.
  - split; [reflexivity|]. split; [reflexivity|]. right. right. eauto.
  - reflexivity.
Qed.

(** ** No encoding failure *)

(** What writeElem does with a value that has no fixed size: the error
    of binary.Write, wrapped. *)
Example writeElem_refuses_int :
  writeElem (H := GoInt) 5 [] =
    (Some (ChildNewtError "binary.Write: some values are not fixed-sized"), []).
Proof. reflexivity. Qed.

(** C9.  Every value the writers hand to [writeElem] is made of
    fixed-width fields, so [writeElem] returns no error for it: none of
    writeHeader, writeFlashArea, writeZeroHash, writeFooter (nor
    writeTlvHeader) ever returns an error, whatever the buffer.  Hence an
    error returned by [insertMeta] is never the wrapped encoding error: it
    is the missing boot-loader area, the region too large, or the
    destination space occupied. *)
Theorem encoding_never_fails :
  (forall (A : Type) (R : Reflect A) (elem : A) (buf : Buffer),
      is_Some (dataSize (reflect elem)) -> fst (writeElem elem buf) = None)
  /\ (forall buf, fst (writeHeader buf) = None)
  /\ (forall area buf, fst (writeFlashArea area buf) = None)
  /\ (forall buf, fst (writeZeroHash buf) = None)
  /\ (forall buf, fst (writeFooter buf) = None)
  /\ (forall code size buf, fst (writeTlvHeader code size buf) = None)
  /\ (forall areas buf, fst (insertMeta_areas areas buf) = None)
  /\ (forall data fm off e data',
        insertMeta data fm = (Return (off, Some e), data') ->
        (forall parent, e <> ChildNewtError parent)
        /\ (e = MissingRequiredArea
            \/ (exists boot meta, e = RegionTooLarge boot meta)
            \/ (exists metaOff, e = RegionSpaceOccupied metaOff))).
Proof.
  split. { intros A R elem buf Hfix. now rewrite writeElem_fixed. }
  split. { reflexivity. }
  split. { reflexivity. }
  split. { reflexivity. }
  split. { reflexivity. }
  split. { reflexivity. }
  split. { intros areas buf. now rewrite insertMeta_areas_eq. }
  intros data fm off e data' H.
  pose proof (insertMeta_outcome data fm) as Ho. cbv zeta in Ho. rewrite H in Ho.
  destruct Ho as (_ & _ & [->|[(b & _ & ->)|(b & _ & ->)]]).
  - split; [intros parent; discriminate|]. now left.
  - split; [intros parent; discriminate|]. right. left. eauto.
  - split; [intros parent; discriminate|]. right. right. eauto.
Qed.

(** ** Atomicity of the insertion *)

(** C5.  When [insertMeta] returns an error (or panics) the blob is the
    one it was given: every check comes before the copy.  When it
    succeeds, the blob keeps its length, every byte outside
    [metaOff, metaOff + len(region)) is unchanged and every byte of the
    blob inside holds the byte of the region for its position; when the
    blob reaches the end of that range, it is the old blob with the whole
    region in place of that range. *)
Theorem insertMeta_atomic (data : list byte) (fm : flash.FlashMap)
    (r : result (Z * option NewtError)) (data' : list byte) :
  insertMeta data fm = (r, data') ->
  let region := metaRegion (flash.SortedAreas fm) in
  (forall off e, r = Return (off, Some e) -> data' = data)
  /\ (forall p, r = Panic p -> data' = data)
  /\ (forall off, r = Return (off, None) ->
      exists bootArea,
        flash.Areas fm !! flash.FLASH_AREA_NAME_BOOTLOADER = Some bootArea
        /\ let metaOff :=
             int_sub (int_add (flash.Offset bootArea) (flash.Size bootArea)) (Len region) in
           0 <= metaOff <= Z.of_nat (length data)
           /\ length data' = length data
           /\ (forall i : nat,
                 ~ (metaOff <= Z.of_nat i < metaOff + Len region) ->
                 data' !! i = data !! i)
           /\ (forall i : nat,
                 metaOff <= Z.of_nat i < metaOff + Len region ->
                 (i < length data)%nat ->
                 data' !! i = region !! (i - Z.to_nat metaOff)%nat)
           /\ (metaOff + Len region <= Z.of_nat (length data) ->
               data' = take (Z.to_nat metaOff) data ++ region
                       ++ drop (Z.to_nat (metaOff + Len region)) data)).
Proof.
  intros H. cbv zeta.
  pose proof (insertMeta_outcome data fm) as Ho. cbv zeta in Ho. rewrite H in Ho.
  split; [|split].
  - intros off e ->. now destruct Ho.
  - intros p ->. exact Ho.
  - intros off ->. destruct Ho as (b & Hb & Hle & _ & Hr & _ & ->).
    exists b. split; [exact Hb|].
    set (metaOff := int_sub _ _) in *.
    split; [exact Hr|].
    split; [apply length_splice; lia|].
    unfold Len in *.
    split; [|split].
    + intros i Hi.
      destruct (Z.lt_ge_cases (Z.of_nat i) metaOff).
      * apply lookup_splice_before; lia.
      * apply lookup_splice_after; lia.
    + intros i Hi Hlen. apply lookup_splice_inside; lia.
    + intros Hfit. rewrite splice_fits by lia. do 3 f_equal. lia.
Qed.

Lemma insertMeta_atomic_witness :
  insertMeta (replicate 64 xff) (boot_only 0 60)
  = (Return (20, None), metaRegion [boot_area 0 60] ++ replicate 4 xff)
  /\ (forall i : nat,
        ~ (0 <= Z.of_nat i < 60) ->
        (metaRegion [boot_area 0 60] ++ replicate 4 xff) !! i
        = replicate 64 xff !! i).
Proof.
  assert (H : insertMeta (replicate 64 xff) (boot_only 0 60)
              = (Return (20, None), metaRegion [boot_area 0 60] ++ replicate 4 xff))
    by (vm_compute; reflexivity).
  split; [exact H|].
  destruct (insertMeta_atomic _ _ _ _ H) as (_ & _ & Hs).
  destruct (Hs 20 eq_refl) as (b & Hb & _ & _ & Hout & _).
  vm_compute in Hb. injection Hb as <-. exact Hout.
Defined.

(** ** The place of the region *)

Lemma insertMeta_success (data : list byte) (fm : flash.FlashMap)
    (bootArea : flash.FlashArea) (off : Z) (data' : list byte) :
  flash.Areas fm !! flash.FLASH_AREA_NAME_BOOTLOADER = Some bootArea ->
  area_ints bootArea ->
  insertMeta data fm = (Return (off, None), data') ->
  let region := metaRegion (flash.SortedAreas fm) in
  let metaOff := flash.Offset bootArea + flash.Size bootArea - Len region in
  Len region <= flash.Size bootArea
  /\ 0 <= metaOff <= Z.of_nat (length data)
  /\ data' = splice data (Z.to_nat metaOff) region
  /\ off = metaOff + hashSubOff (flash.SortedAreas fm)
  /\ hashSubOff (flash.SortedAreas fm) = Len (metaBody (flash.SortedAreas fm)) - META_HASH_SZ.
Proof.
  intros Hb Hints H. cbv zeta.
  pose proof (insertMeta_outcome data fm) as Ho. cbv zeta in Ho. rewrite H in Ho.
  destruct Ho as (b & Hb' & Hle & _ & Hr & -> & ->).
  rewrite Hb in Hb'. injection Hb' as <-.
  destruct (insertMeta_ints bootArea _ Hints Hle) as (E1 & E2 & E3).
  rewrite E1 in *. rewrite E3, E2.
  repeat split; try lia.
Qed.


(** C4.  With the boot-loader area [bootArea] in the map, its offset,
    size and end being Go ints: a successful insertion writes the region
    from metaOff = Offset + Size - len(region) on, so that it ends where
    the area ends, and returns metaOff plus the hash sub-offset.  When
    the size of the area is exactly the length of the region, metaOff is
    the offset of the area: the size check passes (the only error left is
    the occupied space, reported at that offset) and the insertion
    succeeds in an erased area that the blob covers.  When the area is one
    byte smaller, the insertion fails with the region-too-large error,
    which reports the size of the area and the length of the region. *)
Theorem insertMeta_flush_with_end (data : list byte) (fm : flash.FlashMap)
    (bootArea : flash.FlashArea) :
  flash.Areas fm !! flash.FLASH_AREA_NAME_BOOTLOADER = Some bootArea ->
  area_ints bootArea ->
  let region := metaRegion (flash.SortedAreas fm) in
  let offset := flash.Offset bootArea in
  let size := flash.Size bootArea in
  (forall off data',
      insertMeta data fm = (Return (off, None), data') ->
      let metaOff := offset + size - Len region in
      0 <= metaOff <= Z.of_nat (length data)
      /\ metaOff + Len region = offset + size
      /\ data' = splice data (Z.to_nat metaOff) region
      /\ off = metaOff + hashSubOff (flash.SortedAreas fm))
  /\ (size = Len region ->
      (forall off e data',
          insertMeta data fm = (Return (off, Some e), data') ->
          e = RegionSpaceOccupied offset)
      /\ (0 <= offset ->
          offset + size <= Z.of_nat (length data) ->
          (forall i, offset <= i < offset + size -> index data i = Some xff) ->
          insertMeta data fm =
            (Return (offset + hashSubOff (flash.SortedAreas fm), None),
             take (Z.to_nat offset) data ++ region
             ++ drop (Z.to_nat (offset + size)) data)))
  /\ (size = Len region - 1 ->
      insertMeta data fm = (Return (0, Some (RegionTooLarge size (Len region))), data)).
Proof.
  intros Hb Hints. cbv zeta.
  pose proof (Len_metaRegion (flash.SortedAreas fm)) as HL.
  split; [|split].
  - intros off data' H.
    destruct (insertMeta_success data fm bootArea off data' Hb Hints H)
      as (_ & Hr & -> & -> & _).
    repeat split; try lia.
  - intros Hsz.
    assert (Hle : Len (metaRegion (flash.SortedAreas fm)) <= flash.Size bootArea) by lia.
    destruct (insertMeta_ints bootArea _ Hints Hle) as (E1 & E2 & E3).
    split.
    + intros off e data' H.
      rewrite (insertMeta_placed data fm bootArea Hb Hle) in H. cbv zeta in H.
      rewrite E1 in H.
      destruct (scan_from data _ _); [destruct (_ && _)|..]; try discriminate.
      injection H as _ <- _. f_equal. lia.
    + intros Ho Hfit Her.
      rewrite (insertMeta_placed data fm bootArea Hb Hle). cbv zeta.
      rewrite E1, E3, E2.
      replace (flash.Offset bootArea + flash.Size bootArea
               - Len (metaRegion (flash.SortedAreas fm)))
        with (flash.Offset bootArea) by lia.
      assert (Hs : scan_from data (flash.Size bootArea) (flash.Offset bootArea) = ScanErased).
      { apply scan_erased_iff. intros k Hk. apply Her. lia. }
      rewrite Hs.
      rewrite (proj2 (Z.leb_le _ _)), (proj2 (Z.leb_le _ _)) by lia. cbn [andb].
      unfold Len in *. rewrite splice_fits by lia.
      do 4 f_equal. lia.
  - intros Hsz. apply insertMeta_too_large; [exact Hb|lia].
Qed.

Lemma index_replicate (n : nat) (b : byte) (i : Z) :
  0 <= i < Z.of_nat n -> index (replicate n b) i = Some b.
Proof.
  intros H. apply index_Some. split; [lia|]. apply lookup_replicate_2. lia.
Qed.

Lemma insertMeta_flush_with_end_witness :
  insertMeta (replicate 64 xff) (boot_only 4 60)
  = (Return (24, None), replicate 4 xff ++ metaRegion [boot_area 4 60])
  /\ insertMeta (replicate 64 xff) (boot_only 4 59)
     = (Return (0, Some (RegionTooLarge 59 60)), replicate 64 xff).
Proof.
  split.
  - destruct (insertMeta_flush_with_end (replicate 64 xff) (boot_only 4 60) (boot_area 4 60))
      as (_ & Heq & _).
    + reflexivity.
    + int_bounds.
    + destruct Heq as (_ & Hok); [reflexivity|].
      refine (Hok _ _ _).
      * simpl. lia.
      * simpl. lia.
      * intros i Hi. apply index_replicate. simpl in Hi. lia.
  - destruct (insertMeta_flush_with_end (replicate 64 xff) (boot_only 4 59) (boot_area 4 59))
      as (_ & _ & Hsmall).
    + reflexivity.
    + int_bounds.
    + apply Hsmall. reflexivity.
Defined.

(** ** The offset of the hash field *)

Lemma metaRegion_hash_field (areas : list flash.FlashArea) :
  take 32 (drop (length (metaBody areas) - 32) (metaRegion areas)) = replicate 32 x00.
Proof.
  unfold metaRegion, metaBody.
  set (pre := headerBytes ++ flat_map flashAreaTlv areas ++ [x01; x20]).
  replace (headerBytes ++ flat_map flashAreaTlv areas ++ zeroHashTlv)
    with (pre ++ replicate 32 x00)
    by (unfold pre, zeroHashTlv; now rewrite <- !app_assoc).
  rewrite <- app_assoc.
  rewrite drop_app_length' by (rewrite length_app, length_replicate; lia).
  rewrite take_app_length' by (now rewrite length_replicate). reflexivity.
Qed.





(** ** The hash patcher *)

Lemma zero_range_step (blob : list byte) (s n : nat) :
  (s < length blob)%nat ->
  take (S s) (<[s := x00]> blob) ++ replicate n x00 ++ drop (S s + n) (<[s := x00]> blob)
  = take s blob ++ replicate (S n) x00 ++ drop (s + S n) blob.
Proof.
  intros Hs. rewrite insert_take_drop by exact Hs.
  assert (Hl : length (take s blob) = s) by (rewrite length_take; lia).
  replace (take (S s) (take s blob ++ x00 :: drop (S s) blob))
    with (take s blob ++ [x00]).
  2:{ change (x00 :: drop (S s) blob) with ([x00] ++ drop (S s) blob).
      rewrite app_assoc. symmetry. apply take_app_length'.
      rewrite length_app, Hl. simpl. lia. }
  replace (drop (S s + n) (take s blob ++ x00 :: drop (S s) blob))
    with (drop (s + S n) blob).
  2:{ rewrite drop_app_ge by lia. rewrite Hl.
      replace (S s + n - s)%nat with (S n) by lia. cbn [drop].
      rewrite drop_drop. f_equal. lia. }
  rewrite <- app_assoc. reflexivity.
Qed.

Lemma calcMetaHash_zero_eq (n : nat) (blob : list byte) (hashOffset i : Z) :
  0 <= hashOffset -> 0 <= i ->
  hashOffset + i + Z.of_nat n <= Z.of_nat (length blob) ->
  hashOffset + i + Z.of_nat n <= max_int ->
  calcMetaHash_zero n blob hashOffset i =
    (Return tt,
     take (Z.to_nat (hashOffset + i)) blob ++ replicate n x00
     ++ drop (Z.to_nat (hashOffset + i) + n) blob).
Proof.
  revert blob i. induction n as [|n IH]; intros blob i Ho Hi Hlen Hmax.
  - cbn [calcMetaHash_zero replicate app]. rewrite Nat.add_0_r, take_drop. reflexivity.
  - cbn [calcMetaHash_zero].
    rewrite int_add_small by (unfold is_int, min_int, max_int in *; lia).
    unfold set_index.
    rewrite (proj2 (Z.leb_le _ _)), (proj2 (Z.ltb_lt _ _)) by lia. cbn [andb].
    rewrite IH by (rewrite ?length_insert; lia).
    replace (Z.to_nat (hashOffset + (i + 1))) with (S (Z.to_nat (hashOffset + i))) by lia.
    rewrite zero_range_step by lia. reflexivity.
Qed.

Lemma length_with_hash_field (blob : list byte) (hashOffset : Z) (h : list byte) :
  length h = 32%nat ->
  0 <= hashOffset -> hashOffset + 32 <= Z.of_nat (length blob) ->
  length (with_hash_field blob hashOffset h) = length blob.
Proof.
  intros Hh Ho Hlen. unfold with_hash_field.
  rewrite !length_app, length_take, length_drop, Hh. lia.
Qed.

Lemma hash_field_with_hash_field (blob : list byte) (hashOffset : Z) (h : list byte) :
  length h = 32%nat ->
  0 <= hashOffset -> hashOffset + 32 <= Z.of_nat (length blob) ->
  hash_field (with_hash_field blob hashOffset h) hashOffset = h.
Proof.
  intros Hh Ho Hlen. unfold hash_field, with_hash_field.
  rewrite drop_app_length' by (rewrite length_take; lia).
  now apply take_app_length'.
Qed.

Lemma with_hash_field_twice (blob : list byte) (hashOffset : Z) (h h' : list byte) :
  length h = 32%nat ->
  0 <= hashOffset -> hashOffset + 32 <= Z.of_nat (length blob) ->
  with_hash_field (with_hash_field blob hashOffset h) hashOffset h'
  = with_hash_field blob hashOffset h'.
Proof.
  intros Hh Ho Hlen. unfold with_hash_field.
  assert (Hl : length (take (Z.to_nat hashOffset) blob) = Z.to_nat hashOffset)
    by (rewrite length_take; lia).
  rewrite take_app_length' by (symmetry; exact Hl).
  f_equal. f_equal.
  rewrite drop_app_ge by lia. rewrite Hl.
  replace (Z.to_nat hashOffset + 32 - Z.to_nat hashOffset)%nat with (length h) by lia.
  now rewrite drop_app_length.
Qed.

Lemma with_hash_field_same (blob : list byte) (hashOffset : Z) :
  with_hash_field blob hashOffset (hash_field blob hashOffset) = blob.
Proof.
  unfold with_hash_field, hash_field.
  rewrite <- (drop_drop blob 32 (Z.to_nat hashOffset)).
  now rewrite (take_drop 32), take_drop.
Qed.

Lemma lookup_with_hash_field_outside (blob : list byte) (hashOffset : Z) (h : list byte)
    (i : nat) :
  length h = 32%nat ->
  0 <= hashOffset -> hashOffset + 32 <= Z.of_nat (length blob) ->
  ~ (hashOffset <= Z.of_nat i < hashOffset + 32) ->
  with_hash_field blob hashOffset h !! i = blob !! i.
Proof.
  intros Hh Ho Hlen Hi. unfold with_hash_field.
  assert (Hl : length (take (Z.to_nat hashOffset) blob) = Z.to_nat hashOffset)
    by (rewrite length_take; lia).
  destruct (Z.lt_ge_cases (Z.of_nat i) hashOffset).
  - rewrite lookup_app_l by lia. apply lookup_take_lt. lia.
  - rewrite lookup_app_r by lia. rewrite lookup_app_r by lia.
    rewrite lookup_drop. f_equal. lia.
Qed.

Lemma slice_hash_field (blob : list byte) (hashOffset : Z) :
  valid_hash_offset blob hashOffset ->
  slice blob hashOffset (int_add hashOffset META_HASH_SZ)
  = Some (hash_field blob hashOffset).
Proof.
  intros (Ho & Hlen & Hmax). unfold META_HASH_SZ in *.
  rewrite int_add_small by (unfold is_int, min_int, max_int in *; lia).
  apply slice_Some. repeat split; try lia.
  unfold hash_field. do 2 f_equal. lia.
Qed.

Lemma length_hash_field (blob : list byte) (hashOffset : Z) :
  0 <= hashOffset -> hashOffset + 32 <= Z.of_nat (length blob) ->
  length (hash_field blob hashOffset) = 32%nat.
Proof.
  intros Ho Hlen. unfold hash_field. rewrite length_take, length_drop. lia.
Qed.

Lemma copy_same_length (dst src : list byte) : length dst = length src -> copy dst src = src.
Proof.
  intros H. unfold copy. rewrite take_ge, drop_ge by lia. apply app_nil_r.
Qed.

Lemma write_back_field (blob : list byte) (hashOffset : Z) (h : list byte) :
  length h = 32%nat ->
  write_back blob hashOffset h = with_hash_field blob hashOffset h.
Proof.
  intros Hh. unfold write_back, with_hash_field. now rewrite Hh.
Qed.

Lemma valid_hash_offset_with_hash_field (blob : list byte) (hashOffset : Z) (h : list byte) :
  length h = 32%nat ->
  valid_hash_offset blob hashOffset ->
  valid_hash_offset (with_hash_field blob hashOffset h) hashOffset.
Proof.
  intros Hh (Ho & Hlen & Hmax). unfold valid_hash_offset, META_HASH_SZ in *.
  rewrite length_with_hash_field by (assumption || lia). lia.
Qed.

Section HashProperties.

Variable Sum256 : list byte -> vec byte 32.

Lemma calcMetaHash_valid (blob : list byte) (hashOffset : Z) :
  valid_hash_offset blob hashOffset ->
  calcMetaHash Sum256 blob hashOffset
  = (Return (vec_to_list (Sum256 (zero_field blob hashOffset))), blob).
Proof.
  intros Hv. pose proof Hv as (Ho & Hlen & Hmax). unfold META_HASH_SZ in *.
  assert (Hz : length (replicate 32 x00) = 32%nat) by apply length_replicate.
  assert (Hf : length (hash_field blob hashOffset) = 32%nat)
    by (apply length_hash_field; lia).
  unfold calcMetaHash. rewrite (slice_hash_field blob hashOffset Hv).
  change (Z.to_nat (META_HASH_SZ - 0)) with 32%nat.
  change (Z.to_nat META_HASH_SZ) with 32%nat.
  rewrite calcMetaHash_zero_eq by (cbn [Z.of_nat]; lia).
  rewrite Z.add_0_r.
  change (take (Z.to_nat hashOffset) blob ++ replicate 32 x00
          ++ drop (Z.to_nat hashOffset + 32) blob)
    with (zero_field blob hashOffset).
  rewrite (slice_hash_field (zero_field blob hashOffset) hashOffset)
    by (now apply valid_hash_offset_with_hash_field).
  unfold zero_field at 2 3.
  rewrite hash_field_with_hash_field by (assumption || lia).
  rewrite (copy_same_length (replicate 32 x00) (hash_field blob hashOffset))
    by (now rewrite Hz, Hf).
  rewrite (copy_same_length (replicate 32 x00) (hash_field blob hashOffset))
    by (now rewrite Hz, Hf).
  rewrite write_back_field by exact Hf.
  rewrite with_hash_field_twice by (assumption || lia).
  rewrite with_hash_field_same. reflexivity.
Qed.

Lemma fillMetaHash_valid (blob : list byte) (hashOffset : Z) :
  valid_hash_offset blob hashOffset ->
  fillMetaHash Sum256 blob hashOffset
  = (Return tt,
     with_hash_field blob hashOffset (vec_to_list (Sum256 (zero_field blob hashOffset)))).
Proof.
  intros Hv. pose proof Hv as (Ho & Hlen & Hmax). unfold META_HASH_SZ in *.
  unfold fillMetaHash. rewrite (calcMetaHash_valid blob hashOffset Hv).
  rewrite (slice_hash_field blob hashOffset Hv).
  rewrite copy_same_length
    by (rewrite length_hash_field, length_vec_to_list by lia; reflexivity).
  rewrite write_back_field by apply length_vec_to_list. reflexivity.
Qed.

(** The patcher returns exactly for the valid offsets. *)
Lemma calcMetaHash_returns (blob : list byte) (hashOffset : Z) (h blob' : list byte) :
  calcMetaHash Sum256 blob hashOffset = (Return h, blob') ->
  valid_hash_offset blob hashOffset.
Proof.
  unfold calcMetaHash.
  destruct (slice blob hashOffset (int_add hashOffset META_HASH_SZ)) as [w|] eqn:E;
    [|discriminate].
  intros _. apply slice_Some in E as ([Ho Hhi] & Hlen & _).
  unfold valid_hash_offset, META_HASH_SZ in *.
  destruct (wrap_int_congr (hashOffset + 32)) as [k Hk].
  pose proof (wrap_int_is_int (hashOffset + 32)) as Hi.
  unfold int_add in *. unfold is_int, min_int, max_int in Hi.
  assert (k = 0) by lia. subst k. unfold max_int. lia.
Qed.

(** C2.  For every blob and valid hash offset, [fillMetaHash] completes
    and leaves at the hash offset the digest of the whole blob with those
    32 bytes replaced by zero.  Zeroing the hash field of the patched blob
    gives back the blob that was hashed, so that recomputing the digest
    over it, or calling [calcMetaHash] on the patched blob, reproduces
    the patched value. *)
Theorem hash_round_trip (blob : list byte) (hashOffset : Z) :
  valid_hash_offset blob hashOffset ->
  exists blob',
    fillMetaHash Sum256 blob hashOffset = (Return tt, blob')
    /\ hash_field blob' hashOffset = vec_to_list (Sum256 (zero_field blob hashOffset))
    /\ zero_field blob' hashOffset = zero_field blob hashOffset
    /\ vec_to_list (Sum256 (zero_field blob' hashOffset)) = hash_field blob' hashOffset
    /\ calcMetaHash Sum256 blob' hashOffset = (Return (hash_field blob' hashOffset), blob').
Proof.
  intros Hv. pose proof Hv as (Ho & Hlen & Hmax). unfold META_HASH_SZ in *.
  set (h := vec_to_list (Sum256 (zero_field blob hashOffset))).
  assert (Hh : length h = 32%nat) by apply length_vec_to_list.
  exists (with_hash_field blob hashOffset h).
  assert (E1 : hash_field (with_hash_field blob hashOffset h) hashOffset = h)
    by (apply hash_field_with_hash_field; assumption || lia).
  assert (E2 : zero_field (with_hash_field blob hashOffset h) hashOffset
               = zero_field blob hashOffset)
    by (unfold zero_field; apply with_hash_field_twice; assumption || lia).
  split; [apply fillMetaHash_valid; exact Hv|].
  split; [exact E1|]. split; [exact E2|].
  split; [now rewrite E1, E2|].
  rewrite calcMetaHash_valid by (now apply valid_hash_offset_with_hash_field).
  now rewrite E1, E2.
Qed.

(** C8.  [calcMetaHash] puts the 32 saved bytes back after hashing:
    whenever it returns, the blob is the one it was given, and it returns
    for every valid hash offset.  [fillMetaHash] then completes, keeps the
    length of the blob and changes no byte outside
    [hashOffset, hashOffset + 32). *)
Theorem hash_patcher_frame (blob : list byte) (hashOffset : Z) :
  (forall h blob',
      calcMetaHash Sum256 blob hashOffset = (Return h, blob') -> blob' = blob)
  /\ (valid_hash_offset blob hashOffset ->
      (exists h, calcMetaHash Sum256 blob hashOffset = (Return h, blob))
      /\ (exists blob',
            fillMetaHash Sum256 blob hashOffset = (Return tt, blob')
            /\ length blob' = length blob
            /\ forall i : nat,
                 ~ (hashOffset <= Z.of_nat i < hashOffset + META_HASH_SZ) ->
                 blob' !! i = blob !! i)).
Proof.
  split.
  - intros h blob' H. pose proof (calcMetaHash_returns _ _ _ _ H) as Hv.
    rewrite calcMetaHash_valid in H by exact Hv. congruence.
  - intros Hv. pose proof Hv as (Ho & Hlen & Hmax). unfold META_HASH_SZ in *.
    split; [eexists; apply calcMetaHash_valid; exact Hv|].
    eexists. split; [apply fillMetaHash_valid; exact Hv|].
    split.
    + apply length_with_hash_field; [apply length_vec_to_list|lia..].
    + intros i Hi. apply lookup_with_hash_field_outside;
        [apply length_vec_to_list|lia..].
Qed.

End HashProperties.

Lemma hash_round_trip_witness :
  valid_hash_offset inserted_blob 24
  /\ exists blob',
       fillMetaHash checksum32 inserted_blob 24 = (Return tt, blob')
       /\ vec_to_list (checksum32 (zero_field blob' 24)) = hash_field blob' 24.
Proof.
  assert (Hv : valid_hash_offset inserted_blob 24).
  { unfold valid_hash_offset, META_HASH_SZ, max_int. cbn. lia. }
  split; [exact Hv|].
  destruct (hash_round_trip checksum32 inserted_blob 24 Hv) as (blob' & Hf & _ & _ & Hr & _).
  exists blob'. split; [exact Hf|exact Hr].
Defined.

Lemma hash_patcher_frame_witness :
  valid_hash_offset inserted_blob 24
  /\ exists blob',
       fillMetaHash checksum32 inserted_blob 24 = (Return tt, blob')
       /\ length blob' = length inserted_blob.
Proof.
  assert (Hv : valid_hash_offset inserted_blob 24).
  { unfold valid_hash_offset, META_HASH_SZ, max_int. cbn. lia. }
  split; [exact Hv|].
  destruct (hash_patcher_frame checksum32 inserted_blob 24) as (_ & Hf).
  destruct (Hf Hv) as (_ & blob' & Hfill & Hlen & _).
  exists blob'. split; [exact Hfill|exact Hlen].
Defined.

(** ** The window of the erased-space check *)

(** What the check of [insertMeta] covers: with the boot-loader area in
    the map, large enough, and the blob reaching the size of the area, the
    occupied-space error is returned exactly when a byte at an index in
    [metaOff, Size) is not 0xFF.  The upper bound of the loop is the size
    of the area, not its end Offset + Size. *)
Lemma insertMeta_occupied_iff (data : list byte) (fm : flash.FlashMap)
    (bootArea : flash.FlashArea) :
  flash.Areas fm !! flash.FLASH_AREA_NAME_BOOTLOADER = Some bootArea ->
  area_ints bootArea ->
  Len (metaRegion (flash.SortedAreas fm)) <= flash.Size bootArea ->
  0 <= flash.Offset bootArea ->
  flash.Size bootArea <= Z.of_nat (length data) ->
  let metaOff :=
    flash.Offset bootArea + flash.Size bootArea - Len (metaRegion (flash.SortedAreas fm)) in
  insertMeta data fm = (Return (0, Some (RegionSpaceOccupied metaOff)), data)
  <-> exists i, metaOff <= i < flash.Size bootArea /\ index data i <> Some xff.
Proof.
  intros Hb Hints Hle Ho Hlen. cbv zeta.
  destruct (insertMeta_ints bootArea _ Hints Hle) as (E1 & _).
  rewrite (insertMeta_placed data fm bootArea Hb Hle). cbv zeta. rewrite E1.
  set (metaOff := flash.Offset bootArea + flash.Size bootArea
                  - Len (metaRegion (flash.SortedAreas fm))) in *.
  destruct (scan_from data (flash.Size bootArea) metaOff) eqn:Es; unfold scan_from in Es.
  - split.
    + destruct (_ && _); discriminate.
    + intros (i & Hi & Hne). exfalso.
      pose proof (proj1 (scan_erased_iff _ _ _) Es (Z.to_nat (i - metaOff)) ltac:(lia)) as H.
      replace (metaOff + Z.of_nat (Z.to_nat (i - metaOff))) with i in H by lia.
      contradiction.
  - split; [intros _|reflexivity].
    apply scan_occupied_iff in Es as (k & b & Hk & Hidx & Hne & _).
    exists (metaOff + Z.of_nat k). split; [lia|]. rewrite Hidx. congruence.
  - exfalso. apply scan_panic_iff in Es as (k & Hk & Hidx & _).
    apply index_None in Hidx. lia.
Qed.

(** C1 says that [insertMeta] scans the whole destination window
    [metaOff, Offset + Size) and returns the occupied-space error exactly
    when a byte of it is not 0xFF, for every boot-loader area.  The code
    misses it for a boot-loader area at offset 64 of size 60 (the region
    is 60 bytes long, so the window is [64, 124)) and a blob whose byte
    at index 100 is 0x5A: the loop runs from 64 while i < 60, that is not
    at all, and the insertion succeeds over the occupied window. *)
Theorem insertMeta_scan_misses_window :
  index stained_blob 100 = Some x5a
  /\ flash.Offset (boot_area 64 60) + flash.Size (boot_area 64 60)
     - Len (metaRegion [boot_area 64 60]) = 64
  /\ scan_from stained_blob (flash.Size (boot_area 64 60)) 64 = ScanErased
  /\ insertMeta stained_blob (boot_only 64 60)
     = (Return (84, None), replicate 64 xff ++ metaRegion [boot_area 64 60]).
Proof.
  repeat split; vm_compute; reflexivity.
Qed.

(** ** The length of the blob *)

(** C10, as amended.  [insertMeta] never checks the length of the blob.
    With the boot-loader area in the map, large enough for the region
    (its offset, size and end being Go ints), and
    metaOff = Offset + Size - len(region):
    - when the blob is shorter than the size of the area, the insertion
      never succeeds: it panics on an index or a slice bound out of range,
      unless the scan first meets a byte other than 0xFF inside the blob
      and returns the occupied-space error; it panics whenever the blob
      is erased from metaOff on;
    - when the scan passes and the blob ends at or after metaOff but
      before metaOff + len(region), which takes an area at an offset
      above 0, the copy writes the prefix of the region that fits and the
      insertion still succeeds, returning metaOff plus the hash
      sub-offset;
    - when the offset of the area is not negative and the blob reaches
      the end of the area, there is no panic, and a success writes the
      whole region and returns a hash offset with its 32 bytes inside the
      blob. *)
Theorem insertMeta_blob_length (data : list byte) (fm : flash.FlashMap)
    (bootArea : flash.FlashArea) :
  flash.Areas fm !! flash.FLASH_AREA_NAME_BOOTLOADER = Some bootArea ->
  area_ints bootArea ->
  Len (metaRegion (flash.SortedAreas fm)) <= flash.Size bootArea ->
  let region := metaRegion (flash.SortedAreas fm) in
  let metaOff := flash.Offset bootArea + flash.Size bootArea - Len region in
  (Z.of_nat (length data) < flash.Size bootArea ->
     ((exists p, insertMeta data fm = (Panic p, data))
      \/ insertMeta data fm = (Return (0, Some (RegionSpaceOccupied metaOff)), data))
     /\ ((forall i, metaOff <= i < Z.of_nat (length data) -> index data i = Some xff) ->
         exists p, insertMeta data fm = (Panic p, data)))
  /\ (scan_from data (flash.Size bootArea) metaOff = ScanErased ->
      0 <= metaOff <= Z.of_nat (length data) ->
      Z.of_nat (length data) < metaOff + Len region ->
      0 < flash.Offset bootArea
      /\ insertMeta data fm =
           (Return (metaOff + hashSubOff (flash.SortedAreas fm), None),
            take (Z.to_nat metaOff) data
            ++ take (length data - Z.to_nat metaOff) region))
  /\ (0 <= flash.Offset bootArea ->
      flash.Offset bootArea + flash.Size bootArea <= Z.of_nat (length data) ->
      (forall p data', insertMeta data fm <> (Panic p, data'))
      /\ (forall off data',
            insertMeta data fm = (Return (off, None), data') ->
            data' = take (Z.to_nat metaOff) data ++ region
                    ++ drop (Z.to_nat (metaOff + Len region)) data
            /\ 0 <= off /\ off + META_HASH_SZ <= Z.of_nat (length data'))).
Proof.
  intros Hb Hints Hle. cbv zeta.
  destruct (insertMeta_ints bootArea _ Hints Hle) as (E1 & E2 & E3).
  pose proof (Len_metaRegion (flash.SortedAreas fm)) as HL.
  pose proof (Len_metaBody (flash.SortedAreas fm)) as HB.
  rewrite (insertMeta_placed data fm bootArea Hb Hle). cbv zeta. rewrite E1, E3.
  set (metaOff := flash.Offset bootArea + flash.Size bootArea
                  - Len (metaRegion (flash.SortedAreas fm))) in *.
  split; [|split].
  - intros Hshort.
    destruct (scan_from data (flash.Size bootArea) metaOff) eqn:Es; unfold scan_from in Es.
    + assert (Hge : flash.Size bootArea <= metaOff).
      { destruct (Z.lt_ge_cases metaOff (flash.Size bootArea)) as [Hlt|]; [|assumption].
        exfalso.
        pose proof (proj1 (scan_erased_iff _ _ _) Es
                      (Z.to_nat (flash.Size bootArea - metaOff - 1)) ltac:(lia)) as H.
        apply index_Some in H as [_ H]. apply lookup_lt_Some in H. lia. }
      replace (metaOff <=? Z.of_nat (length data)) with false
        by (symmetry; apply Z.leb_gt; lia).
      rewrite andb_false_r. split; [left|intros _]; eauto.
    + split; [now right|]. intros Her. exfalso.
      apply scan_occupied_iff in Es as (k & b & Hk & Hidx & Hne & _).
      pose proof Hidx as Hidx'. apply index_Some in Hidx' as [Hk0 Hl].
      apply lookup_lt_Some in Hl.
      rewrite Her in Hidx by lia. congruence.
    + split; [left|intros _]; eauto.
  - intros Hs Hr Hend. rewrite Hs.
    split.
    { destruct (Z.lt_ge_cases 0 (flash.Offset bootArea)) as [|Hneg]; [assumption|].
      exfalso. unfold scan_from in Hs.
      pose proof (proj1 (scan_erased_iff _ _ _) Hs
                    (Z.to_nat (flash.Size bootArea - metaOff - 1)) ltac:(lia)) as H.
      apply index_Some in H as [_ H]. apply lookup_lt_Some in H. lia. }
    rewrite (proj2 (Z.leb_le _ _)), (proj2 (Z.leb_le _ _)) by lia. cbn [andb].
    rewrite E2. unfold splice. unfold Len in *.
    rewrite (drop_ge data) by lia. now rewrite app_nil_r.
  - intros Ho Hfit.
    assert (Hscan : forall p, scan_from data (flash.Size bootArea) metaOff <> ScanPanic p).
    { intros p Es. unfold scan_from in Es.
      apply scan_panic_iff in Es as (k & Hk & Hidx & _).
      apply index_None in Hidx. lia. }
    rewrite (proj2 (Z.leb_le _ _)), (proj2 (Z.leb_le _ _)) by lia. cbn [andb].
    split.
    + intros p data'. destruct (scan_from data _ metaOff) eqn:Es; try discriminate.
      exfalso. now apply (Hscan p0).
    + intros off data'. destruct (scan_from data _ metaOff); try discriminate.
      intros [= <- <-]. unfold Len, META_HASH_SZ in *.
      rewrite length_splice by lia. rewrite splice_fits by lia.
      split; [|lia]. do 3 f_equal. lia.
Qed.

Lemma insertMeta_blob_length_witness :
  insertMeta (replicate 70 xff) (boot_only 60 60)
  = (Return (80, None), replicate 60 xff ++ take 10 (metaRegion [boot_area 60 60]))
  /\ Z.of_nat (length (replicate 70 xff)) <= 80.
Proof.
  destruct (insertMeta_blob_length (replicate 70 xff) (boot_only 60 60) (boot_area 60 60))
    as (_ & Hprefix & _).
  - reflexivity.
  - int_bounds.
  - rewrite Len_metaRegion. simpl. lia.
  - split; [|simpl; lia].
    refine (proj2 (Hprefix _ _ _)).
    + reflexivity.
    + rewrite Len_metaRegion. simpl. lia.
    + rewrite Len_metaRegion. simpl. lia.
Defined.

(** The claim as stated fails for a boot-loader area of size 60 (the
    region is 60 bytes long).  With the area at offset 0, a blob of the
    single byte 0x00 is shorter than the area, yet the scan indexes
    nothing out of range: it stops at index 0 with the occupied-space
    error; and a blob of 59 erased bytes ends before
    metaOff + len(region) = 60, yet the insertion does not succeed with a
    partial copy: the scan panics at index 59.  With the area at offset
    -4, a blob of 64 erased bytes reaches the end of the area, 56, yet
    the call panics, at index -4. *)
Lemma short_blob_guarded_error :
  (Z.of_nat (length [x00]) < flash.Size (boot_area 0 60)
   /\ insertMeta [x00] (boot_only 0 60)
      = (Return (0, Some (RegionSpaceOccupied 0)), [x00]))
  /\ (Z.of_nat (length (replicate 59 xff))
      < 0 + Len (metaRegion (flash.SortedAreas (boot_only 0 60)))
      /\ insertMeta (replicate 59 xff) (boot_only 0 60)
         = (Panic (IndexOutOfRange 59), replicate 59 xff))
  /\ (flash.Offset (boot_area (-4) 60) + flash.Size (boot_area (-4) 60)
      < Z.of_nat (length (replicate 64 xff))
      /\ insertMeta (replicate 64 xff) (boot_only (-4) 60)
         = (Panic (IndexOutOfRange (-4)), replicate 64 xff)).
Proof.
  repeat split; vm_compute; reflexivity.
Qed.

(** * Further properties of the code *)

(** ** The checks of insertMeta, in their order *)

(** X1.  [insertMeta] returns the missing-boot-loader error (with offset
    0 and the blob untouched) exactly when the map has no entry under the
    boot-loader name, whatever the blob, the empty one included: the
    lookup comes before any access to the blob. *)
Theorem insertMeta_missing_area_iff (data : list byte) (fm : flash.FlashMap) :
  insertMeta data fm = (Return (0, Some MissingRequiredArea), data)
  <-> flash.Areas fm !! flash.FLASH_AREA_NAME_BOOTLOADER = None.
Proof.
  split; [|apply insertMeta_missing].
  intros H.
  destruct (flash.Areas fm !! flash.FLASH_AREA_NAME_BOOTLOADER) as [b|] eqn:Hb;
    [exfalso|reflexivity].
  destruct (Z.lt_ge_cases (flash.Size b) (Len (metaRegion (flash.SortedAreas fm))))
    as [Hlt|Hge].
  - rewrite (insertMeta_too_large data fm b Hb Hlt) in H. discriminate.
  - rewrite (insertMeta_placed data fm b Hb Hge) in H. cbv zeta in H.
    destruct (scan_from data _ _); [destruct (_ && _)|..]; discriminate.
Qed.

(** X2.  With the boot-loader area in the map, the region takes
    46 + 14 n bytes for the n areas of the sorted sequence, and
    [insertMeta] returns the too-small error, carrying the size of the
    area and that length, exactly when the area is smaller; it does so
    without looking at the blob, which it leaves as it is. *)
Theorem insertMeta_too_large_iff (data : list byte) (fm : flash.FlashMap)
    (bootArea : flash.FlashArea) :
  flash.Areas fm !! flash.FLASH_AREA_NAME_BOOTLOADER = Some bootArea ->
  let need := 46 + 14 * Z.of_nat (length (flash.SortedAreas fm)) in
  (flash.Size bootArea < need ->
   insertMeta data fm = (Return (0, Some (RegionTooLarge (flash.Size bootArea) need)), data))
  /\ (forall off boot meta data',
        insertMeta data fm = (Return (off, Some (RegionTooLarge boot meta)), data') ->
        flash.Size bootArea < need /\ boot = flash.Size bootArea /\ meta = need).
Proof.
  intros Hb. cbv zeta.
  pose proof (Len_metaRegion (flash.SortedAreas fm)) as HL.
  split.
  - intros Hlt. rewrite <- HL. apply insertMeta_too_large; [exact Hb|lia].
  - intros off boot meta data' H.
    destruct (Z.lt_ge_cases (flash.Size bootArea) (Len (metaRegion (flash.SortedAreas fm))))
      as [Hlt|Hge].
    + rewrite (insertMeta_too_large data fm bootArea Hb Hlt) in H.
      injection H as _ <- <- _. lia.
    + exfalso. rewrite (insertMeta_placed data fm bootArea Hb Hge) in H. cbv zeta in H.
      destruct (scan_from data _ _); [destruct (_ && _)|..]; discriminate.
Qed.

Lemma insertMeta_too_large_iff_witness :
  insertMeta [] (boot_only 0 59) = (Return (0, Some (RegionTooLarge 59 60)), []).
Proof.
  destruct (insertMeta_too_large_iff [] (boot_only 0 59) (boot_area 0 59)) as (H & _).
  - reflexivity.
  - apply H. simpl. lia.
Defined.

(** X5.  With the boot-loader area in the map and large enough, a start
    offset Offset + Size - len(region) below zero is not caught by any
    check: the first iteration of the scan indexes the blob at that
    negative offset and the call panics, the blob untouched. *)
Theorem insertMeta_negative_metaOff (data : list byte) (fm : flash.FlashMap)
    (bootArea : flash.FlashArea) :
  flash.Areas fm !! flash.FLASH_AREA_NAME_BOOTLOADER = Some bootArea ->
  area_ints bootArea ->
  Len (metaRegion (flash.SortedAreas fm)) <= flash.Size bootArea ->
  flash.Offset bootArea + flash.Size bootArea < Len (metaRegion (flash.SortedAreas fm)) ->
  insertMeta data fm =
    (Panic (IndexOutOfRange (flash.Offset bootArea + flash.Size bootArea
                             - Len (metaRegion (flash.SortedAreas fm)))), data).
Proof.
  intros Hb Hints Hle Hneg.
  destruct (insertMeta_ints bootArea _ Hints Hle) as (E1 & _).
  pose proof (Len_metaRegion (flash.SortedAreas fm)) as HL.
  rewrite (insertMeta_placed data fm bootArea Hb Hle). cbv zeta. rewrite E1.
  rewrite scan_from_loop.
  rewrite (proj2 (Z.ltb_lt _ _)) by lia.
  rewrite (proj2 (index_None data _)) by lia. reflexivity.
Qed.

Lemma insertMeta_negative_metaOff_witness :
  insertMeta (replicate 64 xff) (boot_only (-4) 60)
  = (Panic (IndexOutOfRange (-4)), replicate 64 xff).
Proof.
  apply (insertMeta_negative_metaOff (replicate 64 xff) (boot_only (-4) 60)
           (boot_area (-4) 60)).
  - reflexivity.
  - int_bounds.
  - rewrite Len_metaRegion. simpl. lia.
  - rewrite Len_metaRegion. simpl. lia.
Defined.

(** ** Insertion for a boot-loader area at offset 0 *)

(** X3.  For a boot-loader area at offset 0 that holds the region, in a
    blob that reaches the size of the area, [insertMeta] does not panic
    and the erased-space check decides: the occupied-space error is
    returned exactly when a byte of the last len(region) bytes of the
    area is not 0xFF, and otherwise the region takes their place and the
    returned hash offset is Size - 40. *)
Theorem insertMeta_at_offset_zero (data : list byte) (fm : flash.FlashMap)
    (bootArea : flash.FlashArea) :
  flash.Areas fm !! flash.FLASH_AREA_NAME_BOOTLOADER = Some bootArea ->
  area_ints bootArea ->
  flash.Offset bootArea = 0 ->
  Len (metaRegion (flash.SortedAreas fm)) <= flash.Size bootArea ->
  flash.Size bootArea <= Z.of_nat (length data) ->
  let region := metaRegion (flash.SortedAreas fm) in
  let metaOff := flash.Size bootArea - Len region in
  (insertMeta data fm = (Return (0, Some (RegionSpaceOccupied metaOff)), data)
   <-> exists i, metaOff <= i < flash.Size bootArea /\ index data i <> Some xff)
  /\ (insertMeta data fm =
        (Return (flash.Size bootArea - 40, None),
         take (Z.to_nat metaOff) data ++ region
         ++ drop (Z.to_nat (flash.Size bootArea)) data)
      <-> forall i, metaOff <= i < flash.Size bootArea -> index data i = Some xff)
  /\ (forall p data', insertMeta data fm <> (Panic p, data')).
Proof.
  intros Hb Hints Hoff Hle Hlen. cbv zeta.
  pose proof (insertMeta_occupied_iff data fm bootArea Hb Hints Hle ltac:(lia) Hlen) as Hocc.
  cbv zeta in Hocc. rewrite Hoff, Z.add_0_l in Hocc.
  destruct (insertMeta_ints bootArea _ Hints Hle) as (E1 & E2 & E3).
  pose proof (Len_metaRegion (flash.SortedAreas fm)) as HL.
  pose proof (Len_metaBody (flash.SortedAreas fm)) as HB.
  split; [exact Hocc|]. clear Hocc.
  rewrite (insertMeta_placed data fm bootArea Hb Hle). cbv zeta.
  rewrite E1, E3, Hoff, !Z.add_0_l.
  set (metaOff := flash.Size bootArea - Len (metaRegion (flash.SortedAreas fm))) in *.
  rewrite (proj2 (Z.leb_le 0 metaOff)), (proj2 (Z.leb_le metaOff _)) by lia.
  cbn [andb]. unfold Len, META_HASH_SZ in *.
  rewrite splice_fits by lia.
  replace (Z.to_nat metaOff + length (metaRegion (flash.SortedAreas fm)))%nat
    with (Z.to_nat (flash.Size bootArea)) by lia.
  replace (metaOff + (Z.of_nat (length (metaBody (flash.SortedAreas fm))) - 32))
    with (flash.Size bootArea - 40) by lia.
  destruct (scan_from data (flash.Size bootArea) metaOff) eqn:Es; unfold scan_from in Es.
  - split; [split; [intros _|reflexivity]|discriminate].
    intros i Hi.
    pose proof (proj1 (scan_erased_iff _ _ _) Es (Z.to_nat (i - metaOff)) ltac:(lia)) as H.
    now replace (metaOff + Z.of_nat (Z.to_nat (i - metaOff))) with i in H by lia.
  - split; [split; [discriminate|]|discriminate].
    intros Her. exfalso.
    apply scan_occupied_iff in Es as (k & b & Hk & Hidx & Hne & _).
    rewrite Her in Hidx by lia. congruence.
  - exfalso. apply scan_panic_iff in Es as (k & Hk & Hidx & _).
    apply index_None in Hidx. lia.
Qed.

Lemma insertMeta_at_offset_zero_witness :
  insertMeta (replicate 64 xff) (boot_only 0 64)
  = (Return (24, None), replicate 4 xff ++ metaRegion [boot_area 0 64]).
Proof.
  destruct (insertMeta_at_offset_zero (replicate 64 xff) (boot_only 0 64) (boot_area 0 64))
    as (_ & Hok & _).
  - reflexivity.
  - int_bounds.
  - reflexivity.
  - rewrite Len_metaRegion. simpl. lia.
  - simpl. lia.
  - apply (proj2 Hok). intros i Hi. apply index_replicate.
    rewrite Len_metaRegion in Hi. simpl in Hi. simpl. lia.
Defined.

(** X4.  A second insertion is refused.  For a boot-loader area at offset
    0 in a blob that reaches its size, once [insertMeta] has succeeded,
    calling it again on the blob it left returns the occupied-space error
    and changes nothing: the place is taken by the region written
    before. *)
Theorem insertMeta_twice_refused (data : list byte) (fm : flash.FlashMap)
    (bootArea : flash.FlashArea) (off : Z) (data' : list byte) :
  flash.Areas fm !! flash.FLASH_AREA_NAME_BOOTLOADER = Some bootArea ->
  area_ints bootArea ->
  flash.Offset bootArea = 0 ->
  flash.Size bootArea <= Z.of_nat (length data) ->
  insertMeta data fm = (Return (off, None), data') ->
  insertMeta data' fm =
    (Return (0, Some (RegionSpaceOccupied
                        (flash.Size bootArea - Len (metaRegion (flash.SortedAreas fm))))),
     data').
Proof.
  intros Hb Hints Hoff Hlen H.
  destruct (insertMeta_success data fm bootArea off data' Hb Hints H)
    as (Hle & Hr & -> & _ & _).
  pose proof (Len_metaRegion (flash.SortedAreas fm)) as HL.
  rewrite Hoff, Z.add_0_l in *. unfold Len in *.
  set (metaOff := flash.Size bootArea - Z.of_nat (length (metaRegion (flash.SortedAreas fm))))
    in *.
  assert (Hlen' : length (splice data (Z.to_nat metaOff) (metaRegion (flash.SortedAreas fm)))
                  = length data) by (apply length_splice; lia).
  pose proof (insertMeta_occupied_iff
                (splice data (Z.to_nat metaOff) (metaRegion (flash.SortedAreas fm)))
                fm bootArea Hb Hints Hle ltac:(lia) ltac:(rewrite Hlen'; lia)) as Hocc.
  cbv zeta in Hocc. rewrite Hoff, Z.add_0_l in Hocc. unfold Len in Hocc.
  apply Hocc. exists metaOff. split; [lia|].
  assert (E : index (splice data (Z.to_nat metaOff) (metaRegion (flash.SortedAreas fm))) metaOff
              = Some x01).
  { apply index_Some. split; [lia|].
    rewrite lookup_splice_inside by lia. rewrite Nat.sub_diag. reflexivity. }
  rewrite E. discriminate.
Qed.

Lemma insertMeta_twice_refused_witness :
  insertMeta (replicate 4 xff ++ metaRegion [boot_area 0 64]) (boot_only 0 64)
  = (Return (0, Some (RegionSpaceOccupied 4)),
     replicate 4 xff ++ metaRegion [boot_area 0 64]).
Proof.
  apply (insertMeta_twice_refused (replicate 64 xff) (boot_only 0 64) (boot_area 0 64) 24).
  - reflexivity.
  - int_bounds.
  - reflexivity.
  - simpl. lia.
  - vm_compute. reflexivity.
Defined.

(** ** The region seen from the end of the boot-loader area *)

Lemma slice_splice (data : list byte) (off : nat) (region : list byte) (a b : Z) :
  (off + length region <= length data)%nat ->
  0 <= a <= b -> b <= Z.of_nat (length region) ->
  slice (splice data off region) (Z.of_nat off + a) (Z.of_nat off + b)
  = Some (take (Z.to_nat (b - a)) (drop (Z.to_nat a) region)).
Proof.
  intros Hfit Hab Hb. apply slice_Some. rewrite length_splice by lia.
  split; [lia|]. split; [lia|].
  rewrite splice_fits by exact Hfit.
  replace (Z.to_nat (Z.of_nat off + b - (Z.of_nat off + a))) with (Z.to_nat (b - a)) by lia.
  replace (Z.to_nat (Z.of_nat off + a)) with (off + Z.to_nat a)%nat by lia.
  rewrite drop_app_ge by (rewrite length_take; lia).
  rewrite length_take, Nat.min_l by lia.
  replace (off + Z.to_nat a - off)%nat with (Z.to_nat a) by lia.
  rewrite drop_app_le by lia.
  rewrite take_app_le by (rewrite length_drop; lia). reflexivity.
Qed.

Lemma drop_magic (areas : list flash.FlashArea) :
  drop (length (metaRegion areas) - 4) (metaRegion areas) = [x69; xa2; xb2; x3b].
Proof.
  unfold metaRegion, footerBytes. rewrite !app_assoc.
  apply drop_app_length'. rewrite !length_app. simpl length. lia.
Qed.

(** X6.  Seen from the end of the boot-loader area, the layout does not
    depend on the number of areas: a successful insertion returns the hash
    offset Offset + Size - 40 (the footer and the hash payload being the
    last 8 + 32 bytes of the region), and when the blob reaches the end of
    the area, its four bytes before that end are the magic. *)
Theorem hash_offset_from_end (data : list byte) (fm : flash.FlashMap)
    (bootArea : flash.FlashArea) (off : Z) (data' : list byte) :
  flash.Areas fm !! flash.FLASH_AREA_NAME_BOOTLOADER = Some bootArea ->
  area_ints bootArea ->
  insertMeta data fm = (Return (off, None), data') ->
  let area_end := flash.Offset bootArea + flash.Size bootArea in
  off = area_end - (META_FOOTER_SZ + META_HASH_SZ)
  /\ (area_end <= Z.of_nat (length data) ->
      slice data' (area_end - 4) area_end = Some [x69; xa2; xb2; x3b]).
Proof.
  intros Hb Hints H. cbv zeta.
  destruct (insertMeta_success data fm bootArea off data' Hb Hints H)
    as (Hle & Hr & -> & -> & E2).
  pose proof (Len_metaRegion (flash.SortedAreas fm)) as HL.
  pose proof (Len_metaBody (flash.SortedAreas fm)) as HB.
  unfold META_FOOTER_SZ, META_HASH_SZ, Len in *.
  split; [lia|]. intros Hfit.
  set (region := metaRegion (flash.SortedAreas fm)) in *.
  set (metaOff := flash.Offset bootArea + flash.Size bootArea - Z.of_nat (length region)) in *.
  replace (flash.Offset bootArea + flash.Size bootArea - 4)
    with (Z.of_nat (Z.to_nat metaOff) + (Z.of_nat (length region) - 4)) by lia.
  replace (flash.Offset bootArea + flash.Size bootArea)
    with (Z.of_nat (Z.to_nat metaOff) + Z.of_nat (length region)) by lia.
  rewrite slice_splice by lia. f_equal.
  replace (Z.to_nat (Z.of_nat (length region) - (Z.of_nat (length region) - 4)))
    with 4%nat by lia.
  replace (Z.to_nat (Z.of_nat (length region) - 4)) with (length region - 4)%nat by lia.
  unfold region. rewrite drop_magic. reflexivity.
Qed.

Lemma hash_offset_from_end_witness :
  insertMeta (replicate 64 xff) (boot_only 4 60)
  = (Return (4 + 60 - 40, None), inserted_blob)
  /\ slice inserted_blob 60 64 = Some [x69; xa2; xb2; x3b].
Proof.
  assert (H : insertMeta (replicate 64 xff) (boot_only 4 60)
              = (Return (4 + 60 - 40, None), inserted_blob))
    by (vm_compute; reflexivity).
  split; [exact H|].
  destruct (hash_offset_from_end (replicate 64 xff) (boot_only 4 60) (boot_area 4 60)
              (4 + 60 - 40) inserted_blob) as (_ & Hmagic).
  - reflexivity.
  - int_bounds.
  - exact H.
  - apply Hmagic. simpl. lia.
Defined.

(** X7.  The region can be found again from the footer.  After a
    successful insertion into a blob that reaches the end of the
    boot-loader area, with a region shorter than 65536 bytes, reading the
    footer before the end of the area (magic, then size) and taking that
    many bytes up to the end gives back the encoded region, whose
    flash-area TLVs are those of the sorted sequence, each value cut to
    its field. *)
Theorem locate_inserted_region (data : list byte) (fm : flash.FlashMap)
    (bootArea : flash.FlashArea) (off : Z) (data' : list byte) :
  flash.Areas fm !! flash.FLASH_AREA_NAME_BOOTLOADER = Some bootArea ->
  area_ints bootArea ->
  flash.Offset bootArea + flash.Size bootArea <= Z.of_nat (length data) ->
  Len (metaRegion (flash.SortedAreas fm)) < 2 ^ 16 ->
  insertMeta data fm = (Return (off, None), data') ->
  locate_region data' (flash.Offset bootArea + flash.Size bootArea)
  = Some (metaRegion (flash.SortedAreas fm))
  /\ region_flash_areas (metaRegion (flash.SortedAreas fm))
     = Some (map as_stored (flash.SortedAreas fm)).
Proof.
  intros Hb Hints Hfit Hshort H.
  split; [|apply region_flash_areas_metaRegion].
  destruct (insertMeta_success data fm bootArea off data' Hb Hints H)
    as (Hle & Hr & -> & _ & _).
  pose proof (Len_metaRegion (flash.SortedAreas fm)) as HL.
  pose proof (footer_size_metaRegion (flash.SortedAreas fm)) as Hsz.
  pose proof (footer_of_metaRegion (flash.SortedAreas fm)) as Hft.
  rewrite Z.mod_small in Hsz by (unfold Len in *; lia).
  unfold footer_size, footer_of in Hsz, Hft. unfold Len, META_FOOTER_SZ in *.
  set (region := metaRegion (flash.SortedAreas fm)) in *.
  set (metaOff := flash.Offset bootArea + flash.Size bootArea - Z.of_nat (length region)) in *.
  assert (Eend : flash.Offset bootArea + flash.Size bootArea
                 = Z.of_nat (Z.to_nat metaOff) + Z.of_nat (length region)) by lia.
  unfold locate_region, META_FOOTER_SZ. rewrite Eend.
  replace (Z.of_nat (Z.to_nat metaOff) + Z.of_nat (length region) - 8)
    with (Z.of_nat (Z.to_nat metaOff) + (Z.of_nat (length region) - 8)) by lia.
  rewrite slice_splice by lia.
  replace (Z.to_nat (Z.of_nat (length region) - (Z.of_nat (length region) - 8)))
    with 8%nat by lia.
  replace (Z.to_nat (Z.of_nat (length region) - 8)) with (length region - 8)%nat by lia.
  rewrite (take_ge (drop (length region - 8) region)) by (rewrite length_drop; lia).
  rewrite Hsz, Hft.
  change (LittleEndian_Uint32 (drop 4 (footerBytes _))) with (Some META_MAGIC).
  cbv beta iota. rewrite Z.eqb_refl.
  replace (Z.of_nat (Z.to_nat metaOff) + Z.of_nat (length region) - Z.of_nat (length region))
    with (Z.of_nat (Z.to_nat metaOff) + 0) by lia.
  rewrite slice_splice by lia.
  rewrite Z.sub_0_r, Nat2Z.id. change (Z.to_nat 0) with 0%nat.
  rewrite drop_0, take_ge by lia. reflexivity.
Qed.

Lemma locate_inserted_region_witness :
  locate_region inserted_blob 64 = Some (metaRegion [boot_area 4 60])
  /\ region_flash_areas (metaRegion [boot_area 4 60]) = Some [boot_area 4 60].
Proof.
  apply (locate_inserted_region (replicate 64 xff) (boot_only 4 60) (boot_area 4 60) 24
           inserted_blob).
  - reflexivity.
  - int_bounds.
  - simpl. lia.
  - rewrite Len_metaRegion. simpl. lia.
  - vm_compute. reflexivity.
Defined.

(** ** Insertion followed by the hash patcher *)

Lemma inserted_hash_field (data : list byte) (fm : flash.FlashMap)
    (bootArea : flash.FlashArea) (off : Z) (data' : list byte) :
  flash.Areas fm !! flash.FLASH_AREA_NAME_BOOTLOADER = Some bootArea ->
  area_ints bootArea ->
  flash.Offset bootArea + flash.Size bootArea <= Z.of_nat (length data) ->
  insertMeta data fm = (Return (off, None), data') ->
  valid_hash_offset data' off /\ hash_field data' off = replicate 32 x00.
Proof.
  intros Hb Hints Hfit H.
  destruct (insertMeta_success data fm bootArea off data' Hb Hints H)
    as (Hle & Hr & -> & -> & E2).
  pose proof (Len_metaRegion (flash.SortedAreas fm)) as HL.
  pose proof (Len_metaBody (flash.SortedAreas fm)) as HB.
  destruct Hints as (_ & _ & Hend).
  unfold is_int, min_int, max_int, Len, META_HASH_SZ in *.
  set (region := metaRegion (flash.SortedAreas fm)) in *.
  set (metaOff := flash.Offset bootArea + flash.Size bootArea - Z.of_nat (length region)) in *.
  assert (Hv : valid_hash_offset (splice data (Z.to_nat metaOff) region)
                 (metaOff + hashSubOff (flash.SortedAreas fm))).
  { unfold valid_hash_offset, META_HASH_SZ, max_int.
    rewrite length_splice by lia. lia. }
  split; [exact Hv|].
  pose proof (slice_splice data (Z.to_nat metaOff) region
                (hashSubOff (flash.SortedAreas fm))
                (hashSubOff (flash.SortedAreas fm) + 32)
                ltac:(lia) ltac:(lia) ltac:(lia)) as Hs.
  apply slice_Some in Hs as (_ & _ & Hs).
  unfold hash_field.
  replace (Z.to_nat (metaOff + hashSubOff (flash.SortedAreas fm)))
    with (Z.to_nat (Z.of_nat (Z.to_nat metaOff) + hashSubOff (flash.SortedAreas fm))) by lia.
  replace 32%nat
    with (Z.to_nat (Z.of_nat (Z.to_nat metaOff) + (hashSubOff (flash.SortedAreas fm) + 32)
                    - (Z.of_nat (Z.to_nat metaOff) + hashSubOff (flash.SortedAreas fm))))
    at 1 by lia.
  rewrite <- Hs.
  replace (Z.to_nat (hashSubOff (flash.SortedAreas fm) + 32 - hashSubOff (flash.SortedAreas fm)))
    with 32%nat by lia.
  replace (Z.to_nat (hashSubOff (flash.SortedAreas fm)))
    with (length (metaBody (flash.SortedAreas fm)) - 32)%nat by lia.
  apply metaRegion_hash_field.
Qed.

Section PatcherProperties.

Variable Sum256 : list byte -> vec byte 32.

(** X8.  The two steps compose.  After a successful insertion into a
    blob that reaches the end of the boot-loader area, the returned offset
    is valid for the patcher and the hash field is still zero, so that
    [fillMetaHash] completes and stores the digest of the inserted blob as
    it is; the patched blob differs from the blob given to [insertMeta]
    only inside [metaOff, metaOff + len(region)). *)
Theorem insert_then_fill (data : list byte) (fm : flash.FlashMap)
    (bootArea : flash.FlashArea) (off : Z) (data' : list byte) :
  flash.Areas fm !! flash.FLASH_AREA_NAME_BOOTLOADER = Some bootArea ->
  area_ints bootArea ->
  flash.Offset bootArea + flash.Size bootArea <= Z.of_nat (length data) ->
  insertMeta data fm = (Return (off, None), data') ->
  let region := metaRegion (flash.SortedAreas fm) in
  let metaOff := flash.Offset bootArea + flash.Size bootArea - Len region in
  let patched := with_hash_field data' off (vec_to_list (Sum256 data')) in
  zero_field data' off = data'
  /\ fillMetaHash Sum256 data' off = (Return tt, patched)
  /\ hash_field patched off = vec_to_list (Sum256 data')
  /\ length patched = length data
  /\ (forall i : nat,
        ~ (metaOff <= Z.of_nat i < metaOff + Len region) -> patched !! i = data !! i).
Proof.
  intros Hb Hints Hfit H. cbv zeta.
  destruct (inserted_hash_field data fm bootArea off data' Hb Hints Hfit H) as (Hv & Hz).
  assert (Ez : zero_field data' off = data').
  { unfold zero_field. rewrite <- Hz. apply with_hash_field_same. }
  pose proof Hv as (Ho & Hlen & Hmax). unfold META_HASH_SZ in *.
  destruct (insertMeta_success data fm bootArea off data' Hb Hints H)
    as (Hle & Hr & Hd & Hoff & E2).
  pose proof (Len_metaRegion (flash.SortedAreas fm)) as HL.
  pose proof (Len_metaBody (flash.SortedAreas fm)) as HB.
  assert (Hlen' : length data' = length data).
  { rewrite Hd. apply length_splice. unfold Len in *. lia. }
  split; [exact Ez|].
  split. { rewrite fillMetaHash_valid by exact Hv. now rewrite Ez. }
  split. { apply hash_field_with_hash_field; [apply length_vec_to_list|lia..]. }
  split. { rewrite length_with_hash_field; [exact Hlen'|apply length_vec_to_list|lia..]. }
  intros i Hi. unfold Len, META_HASH_SZ in *.
  rewrite lookup_with_hash_field_outside; [|apply length_vec_to_list|lia..].
  rewrite Hd.
  destruct (Z.lt_ge_cases (Z.of_nat i)
              (flash.Offset bootArea + flash.Size bootArea
               - Z.of_nat (length (metaRegion (flash.SortedAreas fm))))).
  - apply lookup_splice_before; lia.
  - apply lookup_splice_after; lia.
Qed.

(** X9.  Patching is idempotent, the digest not depending on what the
    hash field holds: for a valid hash offset, [calcMetaHash] returns the
    same digest whatever 32 bytes are put in the field, and
    [fillMetaHash] applied to a blob it has patched leaves it as it is. *)
Theorem fillMetaHash_idempotent (blob : list byte) (hashOffset : Z) :
  valid_hash_offset blob hashOffset ->
  (forall h, length h = 32%nat ->
     fst (calcMetaHash Sum256 (with_hash_field blob hashOffset h) hashOffset)
     = fst (calcMetaHash Sum256 blob hashOffset))
  /\ exists blob',
       fillMetaHash Sum256 blob hashOffset = (Return tt, blob')
       /\ fillMetaHash Sum256 blob' hashOffset = (Return tt, blob').
Proof.
  intros Hv. pose proof Hv as (Ho & Hlen & Hmax). unfold META_HASH_SZ in *.
  assert (Ez : forall h, length h = 32%nat ->
            zero_field (with_hash_field blob hashOffset h) hashOffset
            = zero_field blob hashOffset).
  { intros h Hh. unfold zero_field. apply with_hash_field_twice; assumption || lia. }
  split.
  - intros h Hh.
    rewrite calcMetaHash_valid by (now apply valid_hash_offset_with_hash_field).
    rewrite calcMetaHash_valid by exact Hv. cbn [fst]. now rewrite Ez.
  - eexists. split; [apply fillMetaHash_valid; exact Hv|].
    rewrite fillMetaHash_valid
      by (apply valid_hash_offset_with_hash_field; [apply length_vec_to_list|exact Hv]).
    rewrite Ez by apply length_vec_to_list.
    rewrite with_hash_field_twice; [reflexivity|apply length_vec_to_list|lia..].
Qed.

(** X10.  The bounds of the patcher.  [calcMetaHash] and [fillMetaHash]
    return exactly when the hash offset is not negative and the blob has
    32 bytes from it on; for any other offset they panic on a slice bound
    or an index out of range, no error being returned. *)
Theorem hash_patcher_bounds (blob : list byte) (hashOffset : Z) :
  ((exists h blob', calcMetaHash Sum256 blob hashOffset = (Return h, blob'))
   <-> valid_hash_offset blob hashOffset)
  /\ ((exists blob', fillMetaHash Sum256 blob hashOffset = (Return tt, blob'))
      <-> valid_hash_offset blob hashOffset)
  /\ (~ valid_hash_offset blob hashOffset ->
      exists p, fst (calcMetaHash Sum256 blob hashOffset) = Panic p
                /\ fst (fillMetaHash Sum256 blob hashOffset) = Panic p).
Proof.
  split; [|split].
  - split.
    + intros (h & blob' & H). exact (calcMetaHash_returns _ _ _ _ _ H).
    + intros Hv. do 2 eexists. apply calcMetaHash_valid. exact Hv.
  - split.
    + intros (blob' & H). unfold fillMetaHash in H.
      destruct (calcMetaHash Sum256 blob hashOffset) as [[h|p] b] eqn:E; [|discriminate].
      exact (calcMetaHash_returns _ _ _ _ _ E).
    + intros Hv. eexists. apply fillMetaHash_valid. exact Hv.
  - intros Hn. unfold fillMetaHash.
    destruct (calcMetaHash Sum256 blob hashOffset) as [[h|p] b] eqn:E.
    + exfalso. apply Hn. exact (calcMetaHash_returns _ _ _ _ _ E).
    + exists p. split; reflexivity.
Qed.

End PatcherProperties.

Lemma insert_then_fill_witness :
  fillMetaHash checksum32 inserted_blob 24
  = (Return tt, with_hash_field inserted_blob 24 (vec_to_list (checksum32 inserted_blob)))
  /\ hash_field
       (with_hash_field inserted_blob 24 (vec_to_list (checksum32 inserted_blob))) 24
     = vec_to_list (checksum32 inserted_blob).
Proof.
  destruct (insert_then_fill checksum32 (replicate 64 xff) (boot_only 4 60) (boot_area 4 60)
              24 inserted_blob) as (_ & Hfill & Hfield & _).
  - reflexivity.
  - int_bounds.
  - simpl. lia.
  - vm_compute. reflexivity.
  - split; [exact Hfill|exact Hfield].
Defined.

Lemma fillMetaHash_idempotent_witness :
  exists blob',
    fillMetaHash checksum32 inserted_blob 24 = (Return tt, blob')
    /\ fillMetaHash checksum32 blob' 24 = (Return tt, blob').
Proof.
  destruct (fillMetaHash_idempotent checksum32 inserted_blob 24) as (_ & H).
  - unfold valid_hash_offset, META_HASH_SZ, max_int. cbn. lia.
  - exact H.
Defined.

(** ** The encoding as a function of the areas *)

Lemma flashAreaTlv_as_stored (area : flash.FlashArea) :
  flashAreaTlv (as_stored area) = flashAreaTlv area.
Proof.
  unfold flashAreaTlv, as_stored, uint8, uint32. cbn [flash.Id flash.Device flash.Offset flash.Size].
  rewrite !Z.mod_mod by lia. reflexivity.
Qed.

Lemma flat_map_flashAreaTlv_as_stored (areas : list flash.FlashArea) :
  flat_map flashAreaTlv (map as_stored areas) = flat_map flashAreaTlv areas.
Proof.
  induction areas as [|a areas IH]; [reflexivity|].
  cbn [map flat_map]. now rewrite flashAreaTlv_as_stored, IH.
Qed.

(** X11.  The encoded region tells the sequences of areas apart as far
    as the fields can: two sequences give the same region (and hash
    sub-offset) exactly when they have the same areas, in the same order,
    once each value is cut to the width of its field; for areas whose
    values fit the fields, exactly when they are the same sequence. *)
Theorem region_determines_areas (areas1 areas2 : list flash.FlashArea) :
  (insertMeta_encode areas1 = insertMeta_encode areas2
   <-> map as_stored areas1 = map as_stored areas2)
  /\ (Forall fits_tlv areas1 -> Forall fits_tlv areas2 ->
      (insertMeta_encode areas1 = insertMeta_encode areas2 <-> areas1 = areas2)).
Proof.
  assert (Hiff : insertMeta_encode areas1 = insertMeta_encode areas2
                 <-> map as_stored areas1 = map as_stored areas2).
  { rewrite !insertMeta_encode_eq. split.
    - intros H.
      apply (f_equal (fun r : NewtError + Buffer * Z =>
                        match r with
                        | inr (region, _) => region_flash_areas region
                        | inl _ => None
                        end)) in H.
      cbv beta iota in H. rewrite !region_flash_areas_metaRegion in H. congruence.
    - intros Hm. unfold hashSubOff, metaRegion, metaBody.
      rewrite <- (flat_map_flashAreaTlv_as_stored areas1), Hm,
        flat_map_flashAreaTlv_as_stored. reflexivity. }
  split; [exact Hiff|].
  intros H1 H2. rewrite Hiff.
  assert (Hid : forall l, Forall fits_tlv l -> map as_stored l = l).
  { intros l Hl. induction Hl as [|a l Ha _ IH]; [reflexivity|].
    cbn [map]. now rewrite as_stored_fits, IH. }
  now rewrite (Hid _ H1), (Hid _ H2).
Qed.

(** ** writeElem and the TLV header *)

(** Induction on the values of [GoData], the elements of an array or of a
    struct included. *)
Lemma GoData_nested_ind (P : GoData -> Prop) :
  (forall v, P (GoUint8 v)) -> (forall v, P (GoUint16 v)) ->
  (forall v, P (GoUint32 v)) -> (forall v, P (GoInt v)) ->
  (forall l, Forall P l -> P (GoArray l)) ->
  (forall l, Forall P l -> P (GoStruct l)) ->
  forall d, P d.
Proof.
  intros H8 H16 H32 Hi Ha Hs. fix F 1. intros [v|v|v|v|l|l].
  - apply H8.
  - apply H16.
  - apply H32.
  - apply Hi.
  - apply Ha. induction l as [|x r IHr]; constructor; [apply F|exact IHr].
  - apply Hs. induction l as [|x r IHr]; constructor; [apply F|exact IHr].
Qed.

Lemma length_encode_list (o : ByteOrder) (l : list GoData) :
  Forall (fun d => forall n, dataSize d = Some n -> length (encode o d) = n) l ->
  forall n,
    (fix sizes (l : list GoData) : option nat :=
       match l with
       | [] => Some 0%nat
       | x :: r =>
           match dataSize x, sizes r with
           | Some n, Some m => Some (n + m)%nat
           | _, _ => None
           end
       end) l = Some n ->
    length ((fix parts (l : list GoData) : list byte :=
               match l with
               | [] => []
               | x :: r => encode o x ++ parts r
               end) l) = n.
Proof.
  induction 1 as [|x r Hx _ IHr]; intros n Hn.
  - injection Hn as <-. reflexivity.
  - destruct (dataSize x) as [a|] eqn:Ea; [|discriminate].
    match type of Hn with
    | match ?t with _ => _ end = _ => destruct t as [b|] eqn:Eb; [|discriminate]
    end.
    injection Hn as <-. rewrite length_app, (Hx a eq_refl), (IHr b eq_refl). reflexivity.
Qed.

(** The encoding of a value takes the number of bytes that binary.dataSize
    tells. *)
Lemma length_encode (o : ByteOrder) (d : GoData) :
  forall n, dataSize d = Some n -> length (encode o d) = n.
Proof.
  induction d as [v|v|v|v|l IH|l IH] using GoData_nested_ind; intros n Hn.
  - injection Hn as <-. reflexivity.
  - injection Hn as <-. destruct o; reflexivity.
  - injection Hn as <-. destruct o; reflexivity.
  - discriminate.
  - now apply (length_encode_list o l IH).
  - now apply (length_encode_list o l IH).
Qed.

(** X12.  [writeElem] writes all or nothing.  For a value made of
    fixed-size parts it returns no error and appends to the buffer exactly
    the number of bytes binary.dataSize tells, what the buffer held
    staying in front; for any other value it returns the wrapped error of
    binary.Write and the buffer is as it was. *)
Theorem writeElem_all_or_nothing (A : Type) (R : Reflect A) (elem : A) (buf : Buffer) :
  match dataSize (reflect elem) with
  | Some n =>
      exists bytes,
        writeElem elem buf = (None, buf ++ bytes) /\ length bytes = n
  | None =>
      exists parent, writeElem elem buf = (Some (ChildNewtError parent), buf)
  end.
Proof.
  destruct (dataSize (reflect elem)) as [n|] eqn:E.
  - exists (encode LittleEndian (reflect elem)). split.
    + apply writeElem_fixed. eauto.
    + now apply length_encode.
  - unfold writeElem, binary_Write. rewrite E. eauto.
Qed.

(** X13.  A TLV header read back.  For a code below 256 and a payload
    shorter than 256 bytes, [writeTlvHeader] returns no error and appends
    two bytes; these, followed by the payload, are read as one TLV of that
    code and payload, the reading going on with what follows. *)
Theorem writeTlvHeader_read (code : Z) (payload rest : list byte) (buf : Buffer)
    (fuel : nat) :
  0 <= code < 256 ->
  (length payload < 256)%nat ->
  exists hdr,
    writeTlvHeader code (Z.of_nat (length payload)) buf = (None, buf ++ hdr)
    /\ length hdr = 2%nat
    /\ read_tlvs (S fuel) (hdr ++ payload ++ rest)
       = match read_tlvs fuel rest with
         | Some tlvs => Some ((code, payload) :: tlvs)
         | None => None
         end.
Proof.
  intros Hc Hp.
  exists [byte_of_Z code; byte_of_Z (Z.of_nat (length payload))].
  split; [reflexivity|]. split; [reflexivity|].
  cbn [app read_tlvs]. rewrite !Z_of_byte_of_Z.
  rewrite !Z.mod_small by lia. rewrite Nat2Z.id.
  rewrite (proj2 (Nat.leb_le _ _)) by (rewrite length_app; lia).
  rewrite drop_app_length, take_app_length. reflexivity.
Qed.

Lemma writeTlvHeader_read_witness :
  exists hdr,
    writeTlvHeader META_TLV_CODE_HASH 32 [] = (None, hdr)
    /\ read_tlvs 1 (hdr ++ replicate 32 x00) = Some [(META_TLV_CODE_HASH, replicate 32 x00)].
Proof.
  destruct (writeTlvHeader_read META_TLV_CODE_HASH (replicate 32 x00) [] [] 0)
    as (hdr & Hw & _ & Hr).
  - unfold META_TLV_CODE_HASH. lia.
  - simpl. lia.
  - exists hdr. split; [exact Hw|]. rewrite app_nil_r in Hr. exact Hr.
Defined.
